(** * Non-uniform variate generators of [random/floats.py]

    A shallow embedding of the sampling methods of [random/floats.py]
    and the properties stated about them.

    Modelling choices.
    - A Python float is a real number ([R]); the functions of [math] are
      the real functions of the same name.  Rounding, overflow (with the
      [OverflowError] of [math.exp] and [**]), underflow, infinities and
      NaN are therefore outside this model: what is stated over it is
      control flow, the draws taken, what is raised and the formula a
      value is computed by.
    - Where rounding or overflow decides a property, [triangular] and
      [expovariate] are embedded again over binary64 floats, in the
      module [Binary64].
    - What Python raises is modelled: a float division by zero, [math.log],
      [math.sqrt] and [math.acos] outside their domain, and the [ValueError]
      of [gammavariate].
    - [self.random] replays a finite tape of uniform draws; a method that
      asks for a draw when the tape is empty is [Starved], which stands for
      a call that has not returned on the draws it was given.
    - [self.gauss_next] is the second field of the generator.
    - Arguments are passed in full: the defaults of [triangular]
      ([low=0.0], [high=1.0]) are the caller's business, and [mode=None] is
      [None]. *)

From Stdlib Require Import Reals Lra List String Bool ZArith Lia.
From Stdlib Require PrimFloat.
Import ListNotations.
Open Scope R_scope.

(** ** Comparisons of floats, as booleans *)

Definition leb (x y : R) : bool := if Rle_dec x y then true else false.
Definition ltb (x y : R) : bool := if Rlt_dec x y then true else false.
Definition eqb (x y : R) : bool := if Req_dec_T x y then true else false.

Notation "x <=? y" := (leb x y) (at level 70, no associativity) : R_scope.
Notation "x <? y" := (ltb x y) (at level 70, no associativity) : R_scope.
Notation "x =? y" := (eqb x y) (at level 70, no associativity) : R_scope.
Notation "x >? y" := (ltb y x) (at level 70, no associativity) : R_scope.
Notation "x >=? y" := (leb y x) (at level 70, no associativity) : R_scope.

(** ** The generator object and the outcome of a method call *)

Inductive exn : Type :=
| ValueError (msg : string)
| ZeroDivisionError (msg : string)
| ComplexValue.
(* [ComplexValue]: a negative float raised to a non-integral power; the
   result is not a float. *)

Record Random : Type := mkRandom {
  tape : list R;            (* the draws self.random() will return, in order *)
  gauss_next : option R     (* self.gauss_next *)
}.

Inductive outcome (A : Type) : Type :=
| Returned (v : A) (self' : Random)
| Raised (e : exn) (self' : Random)
| Starved.
Arguments Returned {A} v self'.
Arguments Raised {A} e self'.
Arguments Starved {A}.

Definition M (A : Type) : Type := Random -> outcome A.

Definition ret {A} (a : A) : M A := fun self => Returned a self.

Definition bind {A B} (m : M A) (k : A -> M B) : M B :=
  fun self =>
    match m self with
    | Returned a self' => k a self'
    | Raised e self' => Raised e self'
    | Starved => Starved
    end.

Definition raise {A} (e : exn) : M A := fun self => Raised e self.

Notation "x <- m ;; k" := (bind m (fun x => k))
  (at level 61, m at next level, right associativity).
Notation "m ;;; k" := (bind m (fun _ => k))
  (at level 61, right associativity).

(** [self.random()] *)
Definition random : M R :=
  fun self =>
    match tape self with
    | [] => Starved
    | u :: rest => Returned u (mkRandom rest (gauss_next self))
    end.

Definition get_gauss_next : M (option R) :=
  fun self => Returned (gauss_next self) self.

Definition set_gauss_next (z : option R) : M unit :=
  fun self => Returned tt (mkRandom (tape self) z).

(** ** Loops

    One pass of a loop body either goes round again with the loop's
    variables ([Continue]) or leaves the loop with a value ([Break]: a
    [break], a [return] or a false [while] condition).  Every pass that
    goes round again has taken a draw, so a loop makes at most one pass
    more than there are draws on the tape. *)

Inductive ctl (St A : Type) : Type :=
| Continue (s : St)
| Break (a : A).
Arguments Continue {St A} s.
Arguments Break {St A} a.

Fixpoint iterate {St A} (n : nat) (body : St -> M (ctl St A)) (s : St) : M A :=
  fun self =>
    match n with
    | O => Starved
    | S n' =>
        match body s self with
        | Returned (Continue s') self' => iterate n' body s' self'
        | Returned (Break a) self' => Returned a self'
        | Raised e self' => Raised e self'
        | Starved => Starved
        end
    end.

Definition loop {St A} (body : St -> M (ctl St A)) (s : St) : M A :=
  fun self => iterate (S (List.length (tape self))) body s self.

(** ** Float operations that can raise *)

Definition fdiv (x y : R) : M R :=
  if y =? 0 then raise (ZeroDivisionError "divide by zero") else ret (x / y).

Definition fmod (x y : R) : M R :=
  if y =? 0 then raise (ZeroDivisionError "divide by zero")
  else ret (x - IZR (Int_part (x / y)) * y).

Definition _log (x : R) : M R :=
  if x <=? 0 then raise (ValueError "math domain error") else ret (ln x).

Definition _sqrt (x : R) : M R :=
  if x <? 0 then raise (ValueError "math domain error") else ret (sqrt x).

Definition _acos (x : R) : M R :=
  if (x <? -1) || (1 <? x) then raise (ValueError "math domain error")
  else ret (acos x).

Definition _exp (x : R) : R := exp x.
Definition _cos (x : R) : R := cos x.
Definition _sin (x : R) : R := sin x.
Definition _pi : R := PI.
Definition _e : R := exp 1.

Definition is_integral (y : R) : bool := y =? IZR (Int_part y).

(** [x ** y] on floats *)
Definition fpow (x y : R) : M R :=
  if y =? 0 then ret 1
  else if x =? 0 then
    if y <? 0 then raise (ZeroDivisionError "divide by zero") else ret 0
  else if x >? 0 then ret (Rpower x y)
  else if is_integral y then ret (powerRZ x (Int_part y))
  else raise ComplexValue.

(** ** Module constants *)

Definition NV_MAGICCONST : R := 4 * _exp (-0.5) / sqrt 2.0.
Definition TWOPI : R := 2.0 * _pi.
Definition LOG4 : R := ln 4.0.
Definition SG_MAGICCONST : R := 1.0 + ln 4.5.

(** ** triangular *)

Definition triangular (low high : R) (mode : option R) : M R :=
  u <- random ;;
  c <- match mode with
       | None => ret 0.5
       | Some mode => fdiv (mode - low) (high - low)
       end ;;
  let '(u, c, low, high) :=
    if u >? c then (1.0 - u, 1.0 - c, high, low) else (u, c, low, high) in
  p <- fpow (u * c) 0.5 ;;
  ret (low + (high - low) * p).

(** ** normalvariate *)

(* One pass of the Kinderman-Monahan loop; leaves the loop with [z]. *)
Definition normal_pass (_ : unit) : M (ctl unit R) :=
  u1 <- random ;;
  r2 <- random ;;
  let u2 := 1.0 - r2 in
  z <- fdiv (NV_MAGICCONST * (u1 - 0.5)) u2 ;;
  zz <- fdiv (z * z) 4.0 ;;
  l <- _log u2 ;;
  if zz <=? - l then ret (Break z) else ret (Continue tt).

Definition normalvariate (mu sigma : R) : M R :=
  z <- loop normal_pass tt ;;
  ret (mu + z * sigma).

(** ** lognormvariate *)

Definition lognormvariate (mu sigma : R) : M R :=
  v <- normalvariate mu sigma ;;
  ret (_exp v).

(** ** expovariate *)

(* [while u <= 1e-7: u = random()] *)
Definition redraw_near_zero (u : R) : M (ctl R R) :=
  if u <=? 1e-7 then u' <- random ;; ret (Continue u') else ret (Break u).

Definition expovariate (lambd : R) : M R :=
  u <- random ;;
  u <- loop redraw_near_zero u ;;
  l <- _log u ;;
  fdiv (- l) lambd.

(** ** vonmisesvariate *)

(* One pass of the rejection loop; leaves the loop with [f]. *)
Definition vonmises_pass (kappa r : R) (_ : unit) : M (ctl unit R) :=
  u1 <- random ;;
  let z := _cos (_pi * u1) in
  f <- fdiv (1.0 + r * z) (r + z) ;;
  let c := kappa * (r - f) in
  u2 <- random ;;
  if (u2 <? c * (2.0 - c)) || (u2 <=? c * _exp (1.0 - c))
  then ret (Break f)
  else ret (Continue tt).

Definition vonmisesvariate (mu kappa : R) : M R :=
  if kappa <=? 1e-6 then
    u <- random ;;
    ret (TWOPI * u)
  else
    s <- _sqrt (1.0 + 4.0 * kappa * kappa) ;;
    let a := 1.0 + s in
    s2 <- _sqrt (2.0 * a) ;;
    b <- fdiv (a - s2) (2.0 * kappa) ;;
    r <- fdiv (1.0 + b * b) (2.0 * b) ;;
    f <- loop (vonmises_pass kappa r) tt ;;
    u3 <- random ;;
    if u3 >? 0.5 then
      m <- fmod mu TWOPI ;;
      t <- _acos f ;;
      ret (m + t)
    else
      m <- fmod mu TWOPI ;;
      t <- _acos f ;;
      ret (m - t).

(** ** gammavariate *)

(* One pass of Cheng's loop (alpha > 1); leaves the loop with the value
   the method returns. *)
Definition cheng_pass (alpha beta ainv bbb ccc : R) (_ : unit)
  : M (ctl unit R) :=
  u1 <- random ;;
  if negb ((1e-7 <? u1) && (u1 <? 0.9999999)) then ret (Continue tt)
  else
    r2 <- random ;;
    let u2 := 1.0 - r2 in
    q <- fdiv u1 (1.0 - u1) ;;
    lq <- _log q ;;
    v <- fdiv lq ainv ;;
    let x := alpha * _exp v in
    let z := u1 * u1 * u2 in
    let r := bbb + ccc * v - x in
    accept <- (if r + SG_MAGICCONST - 4.5 * z >=? 0.0 then ret true
               else lz <- _log z ;; ret (r >=? lz)) ;;
    if accept then ret (Break (x * beta)) else ret (Continue tt).

(* One pass of algorithm GS (0 < alpha < 1); leaves the loop with [x]. *)
Definition gs_pass (alpha : R) (_ : unit) : M (ctl unit R) :=
  u <- random ;;
  b <- fdiv (_e + alpha) _e ;;
  let p := b * u in
  x <- (if p <=? 1.0 then
          ia <- fdiv 1.0 alpha ;;
          fpow p ia
        else
          q <- fdiv (b - p) alpha ;;
          lq <- _log q ;;
          ret (- lq)) ;;
  u1 <- random ;;
  if p >? 1.0 then
    t <- fpow x (alpha - 1.0) ;;
    if u1 <=? t then ret (Break x) else ret (Continue tt)
  else if u1 <=? _exp (- x) then ret (Break x)
  else ret (Continue tt).

Definition gammavariate (alpha beta : R) : M R :=
  if (alpha <=? 0.0) || (beta <=? 0.0) then
    raise (ValueError "gammavariate: alpha and beta must be > 0.0")
  else if alpha >? 1.0 then
    ainv <- _sqrt (2.0 * alpha - 1.0) ;;
    let bbb := alpha - LOG4 in
    let ccc := alpha + ainv in
    loop (cheng_pass alpha beta ainv bbb ccc) tt
  else if alpha =? 1.0 then
    u <- random ;;
    u <- loop redraw_near_zero u ;;
    l <- _log u ;;
    ret (- l * beta)
  else
    x <- loop (gs_pass alpha) tt ;;
    ret (x * beta).

(** ** gauss *)

Definition gauss (mu sigma : R) : M R :=
  z <- get_gauss_next ;;
  set_gauss_next None ;;;
  z <- match z with
       | None =>
           u <- random ;;
           let x2pi := u * TWOPI in
           y <- random ;;
           l <- _log (1.0 - y) ;;
           g2rad <- _sqrt (-2.0 * l) ;;
           let z := _cos x2pi * g2rad in
           set_gauss_next (Some (_sin x2pi * g2rad)) ;;;
           ret z
       | Some z => ret z
       end ;;
  ret (mu + z * sigma).

(** ** betavariate *)

Definition betavariate (alpha beta : R) : M R :=
  y <- gammavariate alpha 1.0 ;;
  if y =? 0 then ret 0.0
  else
    g <- gammavariate beta 1.0 ;;
    fdiv y (y + g).

(** ** paretovariate *)

Definition paretovariate (alpha : R) : M R :=
  r <- random ;;
  let u := 1.0 - r in
  ia <- fdiv 1.0 alpha ;;
  p <- fpow u ia ;;
  fdiv 1.0 p.

(** ** weibullvariate *)

Definition weibullvariate (alpha beta : R) : M R :=
  r <- random ;;
  let u := 1.0 - r in
  l <- _log u ;;
  ib <- fdiv 1.0 beta ;;
  p <- fpow (- l) ib ;;
  ret (alpha * p).

(** * The methods over binary64 floats

    Where rounding, overflow or underflow decides a property, the method
    is embedded again over IEEE 754 binary64 floats, the arithmetic of a
    Python float: [+], [-], [*], [/] and the comparisons are the machine
    operations.  The C library functions [log] and [pow] that [math.log]
    and [**] call are not part of the module; they are taken as an
    interface. *)

Module Binary64.
  Import PrimFloat.
  Local Open Scope float_scope.

(* The C library. *)
Record libm : Type := mk_libm {
  c_log : float -> float;
  c_pow : float -> float -> float
}.

(* The outcome of a call on a tape of float draws. *)
Inductive outcome64 : Type :=
| Returned64 (v : float) (rest : list float)
| Raised64 (e : exn) (rest : list float)
| Starved64.

(* [x / y] on floats: the division error for a zero divisor, otherwise
   the rounded quotient, which may be infinite or zero. *)
Definition fdiv64 (x y : float) : exn + float :=
  if y =? 0 then inl (ZeroDivisionError "divide by zero") else inr (x / y).

(* [math.log(x)]: a domain error for [x <= 0], otherwise the C library's
   [log]. *)
Definition _log64 (lm : libm) (x : float) : exn + float :=
  if x <=? 0 then inl (ValueError "math domain error")
  else inr (c_log lm x).

(* [x ** 0.5]: a complex number for a negative base, otherwise the C
   library's [pow] (with the exponent 0.5 it neither overflows nor
   divides by zero). *)
Definition pow_half64 (lm : libm) (x : float) : exn + float :=
  if x <? 0 then inl ComplexValue else inr (c_pow lm x 0x1p-1).

(* 1e-7 *)
Definition guard64 : float := 0x1.ad7f29abcaf48p-24.

Definition triangular64 (lm : libm) (low high : float) (mode : option float)
           (tape : list float) : outcome64 :=
  match tape with
  | [] => Starved64
  | u :: rest =>
      match (match mode with
             | None => inr 0x1p-1
             | Some mode => fdiv64 (mode - low) (high - low)
             end) with
      | inl e => Raised64 e rest
      | inr c =>
          let '(u, c, low, high) :=
            if c <? u then (1 - u, 1 - c, high, low)
            else (u, c, low, high) in
          match pow_half64 lm (u * c) with
          | inl e => Raised64 e rest
          | inr p => Returned64 (low + (high - low) * p) rest
          end
      end
  end.

(* [while u <= 1e-7: u = random()] *)
Fixpoint redraw_near_zero64 (tape : list float) (u : float)
  : option (float * list float) :=
  if u <=? guard64 then
    match tape with
    | [] => None
    | u' :: rest => redraw_near_zero64 rest u'
    end
  else Some (u, tape).

Definition expovariate64 (lm : libm) (lambd : float)
           (tape : list float)
  : outcome64 :=
  match tape with
  | [] => Starved64
  | u :: rest =>
      match redraw_near_zero64 rest u with
      | None => Starved64
      | Some (u, rest) =>
          match _log64 lm u with
          | inl e => Raised64 e rest
          | inr l =>
              match fdiv64 (- l) lambd with
              | inl e => Raised64 e rest
              | inr v => Returned64 v rest
              end
          end
      end
  end.

(* The values the C library returns at the arguments that the examples
   below use (the correctly rounded ones); [nan] stands for a value that
   is not recorded.
     log(1.5e-7)      = -15.712630542850155
     log(1 - 2^-53)   = -2^-53
     pow(1.0, 0.5)    = 1.0 *)
Definition recorded_libm : libm :=
  mk_libm
    (fun x =>
       if x =? 0x1.421f5f40d8376p-23 then -0x1.f6cdde9175823p+3
       else if x =? 0x1.fffffffffffffp-1 then -0x1p-53
       else nan)
    (fun x y => if (x =? 1) && (y =? 0x1p-1) then 1 else nan).

(* The floats of the examples. *)
(* 0.1 *)
Definition f_0_1 : float := 0x1.999999999999ap-4.
(* 0.4 *)
Definition f_0_4 : float := 0x1.999999999999ap-2.
(* 1e-17 *)
Definition f_1em17 : float := 0x1.70ef54646d497p-57.
(* 0.09999999999999998 *)
Definition f_below_0_1 : float := 0x1.9999999999998p-4.
(* 1.5e-7 *)
Definition f_1_5em7 : float := 0x1.421f5f40d8376p-23.
(* -5e-308 *)
Definition f_m5em308 : float := -0x1.1fa182c40c60dp-1021.
(* 1e308 *)
Definition f_1e308 : float := 0x1.1ccf385ebc8a0p+1023.
(* 1 - 2^-53 = 0.9999999999999999 *)
Definition f_below_1 : float := 0x1.fffffffffffffp-1.

End Binary64.

(** * Properties

    ** What the statements are written with *)

(* Every draw on the tape is in [0,1): what the uniform source promises. *)
Definition unit_draws (self : Random) : Prop :=
  Forall (fun u => 0 <= u < 1) (tape self).

(* How many draws a call took, from the generator before and after it. *)
Definition draws_taken (self self' : Random) : nat :=
  (List.length (tape self) - List.length (tape self'))%nat.

(* The invalid-argument condition of [gammavariate]. *)
Definition gamma_ValueError : exn :=
  ValueError "gammavariate: alpha and beta must be > 0.0".

Definition map_outcome {A B} (f : A -> B) (o : outcome A) : outcome B :=
  match o with
  | Returned a self' => Returned (f a) self'
  | Raised e self' => Raised e self'
  | Starved => Starved
  end.

Definition map_ctl {St A B} (f : A -> B) (c : ctl St A) : ctl St B :=
  match c with
  | Continue s => Continue s
  | Break a => Break (f a)
  end.

(* A call is [safe] from [P] to [Q] when, started in a state of [P], it
   does not raise, and if it returns, it returns in [Q]. *)
Definition safe {A} (P : Random -> Prop) (m : M A)
           (Q : A -> Random -> Prop) : Prop :=
  forall self,
    P self ->
    match m self with
    | Returned a self' => Q a self'
    | Raised _ _ => False
    | Starved => True
    end.

Definition after_pass {St A} (I : St -> Random -> Prop)
           (Q : A -> Random -> Prop) (c : ctl St A) (self' : Random) : Prop :=
  match c with
  | Continue s' => I s' self'
  | Break a => Q a self'
  end.

(* A call that never puts a draw back on the tape. *)
Definition no_refill {A} (m : M A) : Prop :=
  forall self a self',
    m self = Returned a self' ->
    (List.length (tape self') <= List.length (tape self))%nat.

(* A loop body whose every pass that goes round again has taken a draw. *)
Definition consuming {St A} (body : St -> M (ctl St A)) : Prop :=
  forall s self s' self',
    body s self = Returned (Continue s') self' ->
    (List.length (tape self') < List.length (tape self))%nat.

(* The state of the re-draw loop [while u <= 1e-7: u = random()] on a
   generator that started with the tape [tape0] and the cache [g0]: [u] is
   the draw in hand, the draws before it were all discarded as [<= 1e-7],
   the draws after it are still on the tape. *)
Definition redraw_inv (tape0 : list R) (g0 : option R) (u : R)
           (self : Random) : Prop :=
  exists skipped,
    tape0 = skipped ++ u :: tape self
    /\ Forall (fun w => w <= 1e-7) skipped
    /\ gauss_next self = g0.

(* What a call may do to the generator: take draws off the front of the
   tape, in order, and leave the cache of [gauss] alone. *)
Definition frame (self self' : Random) : Prop :=
  gauss_next self' = gauss_next self
  /\ exists taken, tape self = taken ++ tape self'.

(* A call that, whether it returns or raises, only does that. *)
Definition framed {A} (m : M A) : Prop :=
  forall self,
    match m self with
    | Returned _ self' => frame self self'
    | Raised _ self' => frame self self'
    | Starved => True
    end.

(* [n] calls of a method in a row, with the values they return. *)
Fixpoint calls {A} (n : nat) (m : M A) : M (list A) :=
  match n with
  | O => ret []
  | S n' =>
      a <- m ;;
      rest <- calls n' m ;;
      ret (a :: rest)
  end.

(* The draws [n] calls of [gauss] take, from a generator whose cache is
   full ([cached = true]) or empty. *)
Fixpoint gauss_draws (cached : bool) (n : nat) : nat :=
  match n with
  | O => O
  | S n' => if cached then gauss_draws false n' else 2 + gauss_draws true n'
  end.

Definition is_cached (self : Random) : bool :=
  match gauss_next self with Some _ => true | None => false end.

(* The state of the Kinderman-Monahan loop on a generator that started
   with the tape [tape0]: an even number of draws, all on rejected passes,
   has been taken. *)
Definition normal_inv (tape0 : list R) (self : Random) : Prop :=
  unit_draws self
  /\ exists before,
      tape0 = before ++ tape self /\ Nat.Even (List.length before).

(* What an accepted pass leaves: the two draws it took and the [z] made
   from them. *)
Definition normal_accepted (tape0 : list R) (z : R) (self' : Random) : Prop :=
  exists before u1 r2,
    tape0 = before ++ u1 :: r2 :: tape self'
    /\ Nat.Even (List.length before)
    /\ z = NV_MAGICCONST * (u1 - 0.5) / (1 - r2)
    /\ z * z / 4 <= - ln (1 - r2).

(** ** Deciding comparisons *)

Lemma leb_true x y : x <= y -> (x <=? y) = true.
Proof.
  intros H; unfold leb.
  destruct (Rle_dec x y); [reflexivity | contradiction].
Qed.

Lemma leb_false x y : y < x -> (x <=? y) = false.
Proof. intros H; unfold leb; destruct (Rle_dec x y); [lra | reflexivity]. Qed.

Lemma ltb_true x y : x < y -> (x <? y) = true.
Proof.
  intros H; unfold ltb.
  destruct (Rlt_dec x y); [reflexivity | contradiction].
Qed.

Lemma ltb_false x y : y <= x -> (x <? y) = false.
Proof. intros H; unfold ltb; destruct (Rlt_dec x y); [lra | reflexivity]. Qed.

Lemma eqb_true x y : x = y -> (x =? y) = true.
Proof.
  intros H; unfold eqb.
  destruct (Req_dec_T x y); [reflexivity | contradiction].
Qed.

Lemma eqb_false x y : x <> y -> (x =? y) = false.
Proof.
  intros H; unfold eqb.
  destruct (Req_dec_T x y); [contradiction | reflexivity].
Qed.

(* Split on a comparison the hypotheses leave open. *)
Ltac rcase t :=
  match t with
  | ?x <=? ?y =>
      let H := fresh "Hle" in
      destruct (Rle_dec x y) as [H | H];
      [ rewrite (leb_true x y H)
      | apply Rnot_le_lt in H; rewrite (leb_false x y H) ]
  | ?x <? ?y =>
      let H := fresh "Hlt" in
      destruct (Rlt_dec x y) as [H | H];
      [ rewrite (ltb_true x y H)
      | apply Rnot_lt_le in H; rewrite (ltb_false x y H) ]
  | ?x =? ?y =>
      let H := fresh "Heq" in
      destruct (Req_dec_T x y) as [H | H];
      [ rewrite (eqb_true x y H) | rewrite (eqb_false x y H) ]
  end.

(** ** Running a method on a generator *)

Lemma random_cons u rest g :
  random (mkRandom (u :: rest) g) = Returned u (mkRandom rest g).
Proof. reflexivity. Qed.

Lemma random_nil g : random (mkRandom [] g) = Starved.
Proof. reflexivity. Qed.

Lemma bind_Returned {A B} (m : M A) (k : A -> M B) self a self' :
  m self = Returned a self' -> bind m k self = k a self'.
Proof. intros H; unfold bind; rewrite H; reflexivity. Qed.

Lemma bind_Raised {A B} (m : M A) (k : A -> M B) self e self' :
  m self = Raised e self' -> bind m k self = Raised e self'.
Proof. intros H; unfold bind; rewrite H; reflexivity. Qed.

Lemma bind_Starved {A B} (m : M A) (k : A -> M B) self :
  m self = Starved -> bind m k self = Starved.
Proof. intros H; unfold bind; rewrite H; reflexivity. Qed.

Lemma bind_ret {A B} (a : A) (k : A -> M B) self :
  bind (ret a) k self = k a self.
Proof. reflexivity. Qed.

Lemma bind_assoc {A B C} (m : M A) (k1 : A -> M B) (k2 : B -> M C) self :
  bind (bind m k1) k2 self = bind m (fun a => bind (k1 a) k2) self.
Proof. unfold bind; destruct (m self); reflexivity. Qed.

Lemma bind_ext {A B} (m : M A) (k1 k2 : A -> M B) self :
  (forall a self', k1 a self' = k2 a self') ->
  bind m k1 self = bind m k2 self.
Proof.
  intros H; unfold bind; destruct (m self); [apply H | reflexivity ..].
Qed.

Lemma bind_random_cons {B} (k : R -> M B) u rest g :
  bind random k (mkRandom (u :: rest) g) = k u (mkRandom rest g).
Proof. reflexivity. Qed.

Lemma bind_random_nil {B} (k : R -> M B) g :
  bind random k (mkRandom [] g) = Starved.
Proof. reflexivity. Qed.

Lemma fdiv_ok x y self : y <> 0 -> fdiv x y self = Returned (x / y) self.
Proof. intros H; unfold fdiv; rewrite (eqb_false y 0 H); reflexivity. Qed.

Lemma fdiv_zero x self :
  fdiv x 0 self = Raised (ZeroDivisionError "divide by zero") self.
Proof. unfold fdiv; rewrite (eqb_true 0 0 eq_refl); reflexivity. Qed.

Lemma bind_fdiv {B} x y (k : R -> M B) self :
  y <> 0 -> bind (fdiv x y) k self = k (x / y) self.
Proof. intros H; apply bind_Returned, fdiv_ok, H. Qed.

Lemma _log_ok x self : 0 < x -> _log x self = Returned (ln x) self.
Proof. intros H; unfold _log; rewrite (leb_false x 0 H); reflexivity. Qed.

Lemma bind_log {B} x (k : R -> M B) self :
  0 < x -> bind (_log x) k self = k (ln x) self.
Proof. intros H; apply bind_Returned, _log_ok, H. Qed.

Lemma _sqrt_ok x self : 0 <= x -> _sqrt x self = Returned (sqrt x) self.
Proof. intros H; unfold _sqrt; rewrite (ltb_false x 0 H); reflexivity. Qed.

Lemma bind_sqrt {B} x (k : R -> M B) self :
  0 <= x -> bind (_sqrt x) k self = k (sqrt x) self.
Proof. intros H; apply bind_Returned, _sqrt_ok, H. Qed.

Lemma fpow_zero y self : 0 < y -> fpow 0 y self = Returned 0 self.
Proof.
  intros H; unfold fpow.
  rewrite (eqb_false y 0) by lra.
  rewrite (eqb_true 0 0 eq_refl), (ltb_false y 0) by lra.
  reflexivity.
Qed.

Lemma fpow_pos x y self :
  0 < x -> y <> 0 -> fpow x y self = Returned (Rpower x y) self.
Proof.
  intros Hx Hy; unfold fpow.
  rewrite (eqb_false y 0 Hy), (eqb_false x 0), (ltb_true 0 x) by lra.
  reflexivity.
Qed.

Lemma fpow_nonneg x y self :
  0 <= x -> 0 < y ->
  exists v, fpow x y self = Returned v self /\ 0 <= v.
Proof.
  intros Hx Hy.
  destruct (Req_dec_T x 0) as [-> | Hne].
  - exists 0; split; [apply fpow_zero; exact Hy | lra].
  - exists (Rpower x y); split; [apply fpow_pos; lra |].
    left; apply exp_pos.
Qed.

(* [t ** 0.5] for [t] in [0,1]: defined, and in [0,1]. *)
Lemma fpow_half_unit t self :
  0 <= t <= 1 ->
  exists p, fpow t 0.5 self = Returned p self /\ 0 <= p <= 1.
Proof.
  intros [H0 H1].
  destruct (Req_dec_T t 0) as [-> | Hne].
  - exists 0; split; [apply fpow_zero; lra | lra].
  - exists (Rpower t 0.5); split; [apply fpow_pos; lra |].
    unfold Rpower; split; [left; apply exp_pos |].
    rewrite <- exp_0.
    destruct (Req_dec_T t 1) as [-> | Hne1].
    + rewrite ln_1, Rmult_0_r; lra.
    + left; apply exp_increasing.
      assert (ln t < 0) by (rewrite <- ln_1; apply ln_increasing; lra).
      nra.
Qed.

Lemma e_gt_1 : 1 < _e.
Proof.
  pose proof (exp_increasing 0 1 ltac:(lra)) as H.
  rewrite exp_0 in H; exact H.
Qed.

(* C2 *)
Lemma ln_half_neg : ln 0.5 < 0.
Proof. rewrite <- ln_1; apply ln_increasing; lra. Qed.

Lemma map_outcome_bind {A B C} (f : B -> C) (m : M A) (k : A -> M B) self :
  map_outcome f (bind m k self)
  = bind m (fun a self' => map_outcome f (k a self')) self.
Proof. unfold bind; destruct (m self); reflexivity. Qed.

(** ** Loops *)

(* Two loops whose passes agree up to the value they leave with agree up
   to that value, pass for pass. *)
Lemma iterate_map {St A B} (f : A -> B)
      (body1 : St -> M (ctl St B)) (body2 : St -> M (ctl St A)) :
  (forall s self, body1 s self = map_outcome (map_ctl f) (body2 s self)) ->
  forall n s self,
    iterate n body1 s self = map_outcome f (iterate n body2 s self).
Proof.
  intros Hpass n; induction n as [| n IH]; intros s self; [reflexivity |].
  cbn [iterate]; rewrite Hpass.
  destruct (body2 s self) as [[s' | a] self' | e self' |]; cbn;
    [apply IH | reflexivity ..].
Qed.

Lemma loop_map {St A B} (f : A -> B)
      (body1 : St -> M (ctl St B)) (body2 : St -> M (ctl St A)) :
  (forall s self, body1 s self = map_outcome (map_ctl f) (body2 s self)) ->
  forall s self, loop body1 s self = map_outcome f (loop body2 s self).
Proof. intros H s self; unfold loop; apply iterate_map; exact H. Qed.

(* The loop rule: an invariant [I] that every pass keeps when it goes
   round again, and turns into [Q] when it leaves. *)
Section LoopRule.
  Context {St A : Type}.
  Variable I : St -> Random -> Prop.
  Variable Q : A -> Random -> Prop.
  Variable body : St -> M (ctl St A).
  Hypothesis Hpass : forall s, safe (I s) (body s) (after_pass I Q).

Lemma iterate_safe : forall n s, safe (I s) (iterate n body s) Q.
Proof.
  intros n; induction n as [| n IH]; intros s self HI; [exact Logic.I |].
  cbn [iterate].
  pose proof (Hpass s self HI) as Hs.
  destruct (body s self) as [[s' | a] self' | e self' |]; cbn in Hs.
  - apply IH; exact Hs.
  - exact Hs.
  - contradiction.
  - exact Logic.I.
Qed.

Lemma loop_safe : forall s, safe (I s) (loop body s) Q.
Proof. intros s self HI; unfold loop; apply iterate_safe; exact HI. Qed.

End LoopRule.

Lemma no_refill_ret {A} (a : A) : no_refill (ret a).
Proof. intros self a' self' H; injection H as _ <-; lia. Qed.

Lemma no_refill_raise {A} e : no_refill (@raise A e).
Proof. intros self a self' H; discriminate. Qed.

Lemma no_refill_random : no_refill random.
Proof.
  intros [tp g] a self'; unfold random; cbn [tape gauss_next].
  destruct tp; [discriminate |]; intros H; injection H as _ <-; cbn; lia.
Qed.

Lemma no_refill_bind {A B} (m : M A) (k : A -> M B) :
  no_refill m -> (forall a, no_refill (k a)) -> no_refill (bind m k).
Proof.
  intros Hm Hk self b self'; unfold bind.
  destruct (m self) as [a self1 | |] eqn:E; try discriminate.
  intros H; apply Hm in E; apply Hk in H; lia.
Qed.

Lemma no_refill_if {A} (b : bool) (m1 m2 : M A) :
  no_refill m1 -> no_refill m2 -> no_refill (if b then m1 else m2).
Proof. destruct b; auto. Qed.

Lemma no_refill_fdiv x y : no_refill (fdiv x y).
Proof.
  unfold fdiv; apply no_refill_if;
    [apply no_refill_raise | apply no_refill_ret].
Qed.

Lemma no_refill_log x : no_refill (_log x).
Proof.
  unfold _log; apply no_refill_if;
    [apply no_refill_raise | apply no_refill_ret].
Qed.

Lemma no_refill_fpow x y : no_refill (fpow x y).
Proof.
  unfold fpow; repeat apply no_refill_if;
    first [apply no_refill_raise | apply no_refill_ret].
Qed.

Create HintDb tape_db.
#[local] Hint Resolve no_refill_ret no_refill_raise no_refill_random
  no_refill_fdiv no_refill_log no_refill_fpow : tape_db.

Ltac no_refill_tac :=
  repeat first
    [ progress cbv zeta
    | progress intros
    | solve [auto with tape_db]
    | apply no_refill_bind
    | apply no_refill_if ].

(* A pass that starts with a draw and never puts one back is consuming. *)
Lemma consuming_after_draw {St A} (k : St -> R -> M (ctl St A)) :
  (forall s u, no_refill (k s u)) ->
  consuming (fun s => u <- random ;; k s u).
Proof.
  intros Hk s [tp g] s' self'; unfold bind, random; cbn [tape gauss_next].
  destruct tp as [| u tp]; [discriminate |].
  intros H; apply Hk in H; cbn in *; lia.
Qed.

Lemma redraw_near_zero_consuming : consuming redraw_near_zero.
Proof.
  intros u [tp g] u' self'; unfold redraw_near_zero.
  destruct (u <=? 1e-7); [| discriminate].
  destruct tp as [| w tp]; [discriminate |].
  rewrite bind_random_cons; intros H; injection H as _ <-; cbn; lia.
Qed.

Lemma cheng_pass_consuming alpha beta ainv bbb ccc :
  consuming (cheng_pass alpha beta ainv bbb ccc).
Proof.
  unfold cheng_pass.
  apply (consuming_after_draw (St := unit)); no_refill_tac.
Qed.

Lemma gs_pass_consuming alpha : consuming (gs_pass alpha).
Proof.
  unfold gs_pass.
  apply (consuming_after_draw (St := unit)); no_refill_tac.
Qed.

Lemma vonmises_pass_consuming kappa r : consuming (vonmises_pass kappa r).
Proof.
  unfold vonmises_pass.
  apply (consuming_after_draw (St := unit)); no_refill_tac.
Qed.

(* The bound on passes is never what stops a loop whose passes are
   consuming: the loop is one pass, then the loop again. *)
Section LoopBound.
  Context {St A : Type}.
  Variable body : St -> M (ctl St A).
  Hypothesis Hconsuming : consuming body.

Lemma iterate_enough :
  forall n m s self,
    (List.length (tape self) < n)%nat ->
    (List.length (tape self) < m)%nat ->
    iterate n body s self = iterate m body s self.
Proof.
  intros n; induction n as [| n IH]; intros m s self Hn Hm; [lia |].
  destruct m as [| m]; [lia |].
  cbn [iterate].
  destruct (body s self) as [[s' | a] self' | e self' |] eqn:E;
    try reflexivity.
  apply Hconsuming in E; apply IH; lia.
Qed.

Lemma loop_unfold s self :
  loop body s self
  = match body s self with
    | Returned (Continue s') self' => loop body s' self'
    | Returned (Break a) self' => Returned a self'
    | Raised e self' => Raised e self'
    | Starved => Starved
    end.
Proof.
  unfold loop.
  change (iterate (S (List.length (tape self))) body s self)
    with (match body s self with
          | Returned (Continue s') self' =>
              iterate (List.length (tape self)) body s' self'
          | Returned (Break a) self' => Returned a self'
          | Raised e self' => Raised e self'
          | Starved => Starved
          end).
  destruct (body s self) as [[s' | a] self' | e self' |] eqn:E;
    try reflexivity.
  apply iterate_enough; [apply Hconsuming in E; lia | lia].
Qed.

End LoopBound.

(* The re-draw loop, unfolded. *)
Lemma redraw_loop_unfold u self :
  loop redraw_near_zero u self
  = if u <=? 1e-7 then (u' <- random ;; loop redraw_near_zero u') self
    else Returned u self.
Proof.
  rewrite (loop_unfold _ redraw_near_zero_consuming).
  unfold redraw_near_zero.
  destruct (u <=? 1e-7); [| reflexivity].
  unfold bind, ret; destruct (random self); reflexivity.
Qed.

Lemma cheng_loop_unfold alpha beta ainv bbb ccc self :
  loop (cheng_pass alpha beta ainv bbb ccc) tt self
  = match cheng_pass alpha beta ainv bbb ccc tt self with
    | Returned (Continue _) self' =>
        loop (cheng_pass alpha beta ainv bbb ccc) tt self'
    | Returned (Break x) self' => Returned x self'
    | Raised e self' => Raised e self'
    | Starved => Starved
    end.
Proof.
  rewrite (loop_unfold _ (cheng_pass_consuming alpha beta ainv bbb ccc)).
  destruct (cheng_pass alpha beta ainv bbb ccc tt self)
    as [[[] | x] self' | e self' |]; reflexivity.
Qed.

Lemma gs_loop_unfold alpha self :
  loop (gs_pass alpha) tt self
  = match gs_pass alpha tt self with
    | Returned (Continue _) self' => loop (gs_pass alpha) tt self'
    | Returned (Break x) self' => Returned x self'
    | Raised e self' => Raised e self'
    | Starved => Starved
    end.
Proof.
  rewrite (loop_unfold _ (gs_pass_consuming alpha)).
  destruct (gs_pass alpha tt self) as [[[] | x] self' | e self' |];
    reflexivity.
Qed.

Lemma vonmises_loop_unfold kappa r self :
  loop (vonmises_pass kappa r) tt self
  = match vonmises_pass kappa r tt self with
    | Returned (Continue _) self' => loop (vonmises_pass kappa r) tt self'
    | Returned (Break f) self' => Returned f self'
    | Raised e self' => Raised e self'
    | Starved => Starved
    end.
Proof.
  rewrite (loop_unfold _ (vonmises_pass_consuming kappa r)).
  destruct (vonmises_pass kappa r tt self) as [[[] | f] self' | e self' |];
    reflexivity.
Qed.

(** ** triangular *)

(* The mode ratio of a mode inside [low, high] is in [0,1]. *)
Lemma mode_ratio_unit low high mode :
  low < high -> low <= mode <= high ->
  0 <= (mode - low) / (high - low) <= 1.
Proof.
  intros Hlh [Hl Hh].
  assert (Hd : 0 < high - low) by lra.
  split.
  - apply Rmult_le_pos; [lra | left; apply Rinv_0_lt_compat; exact Hd].
  - apply (Rmult_le_reg_r (high - low)); [exact Hd |].
    unfold Rdiv; rewrite Rmult_assoc, Rinv_l by lra; lra.
Qed.

(* What [triangular] does once [u] and the ratio [c] are known. *)
Lemma triangular_after_ratio low high u c self :
  low < high -> 0 <= u < 1 -> 0 <= c <= 1 ->
  exists v,
    (let '(u, c, low, high) :=
       if u >? c then (1.0 - u, 1.0 - c, high, low) else (u, c, low, high) in
     p <- fpow (u * c) 0.5 ;;
     ret (low + (high - low) * p)) self = Returned v self
    /\ low <= v <= high.
Proof.
  intros Hlh Hu Hc.
  rcase (u >? c).
  - destruct (fpow_half_unit ((1.0 - u) * (1.0 - c)) self) as (p & Hp & Hp01);
      [nra |].
    exists (high + (low - high) * p); split.
    + rewrite (bind_Returned _ _ _ _ _ Hp); reflexivity.
    + nra.
  - destruct (fpow_half_unit (u * c) self) as (p & Hp & Hp01); [nra |].
    exists (low + (high - low) * p); split.
    + rewrite (bind_Returned _ _ _ _ _ Hp); reflexivity.
    + nra.
Qed.

(* Over the reals, that is in exact arithmetic: for [low < high], a mode
   in [low, high] or no mode, and a draw [u] in [0,1), [triangular] takes
   exactly that one draw and the value of its formula is in [low, high]. *)
Lemma triangular_exact_in_range :
  forall low high mode u rest g,
    low < high ->
    match mode with Some m => low <= m <= high | None => True end ->
    0 <= u < 1 ->
    exists v,
      triangular low high mode (mkRandom (u :: rest) g)
        = Returned v (mkRandom rest g)
      /\ Rmin low high <= v <= Rmax low high
      /\ low <= v <= high.
Proof.
  intros low high mode u rest g Hlh Hmode Hu.
  assert (Hc : exists c,
             match mode with
             | None => ret 0.5
             | Some mode => fdiv (mode - low) (high - low)
             end (mkRandom rest g) = Returned c (mkRandom rest g)
             /\ 0 <= c <= 1).
  { destruct mode as [m |].
    - exists ((m - low) / (high - low)); split.
      + apply fdiv_ok; lra.
      + apply mode_ratio_unit; assumption.
    - exists 0.5; split; [reflexivity | lra]. }
  destruct Hc as (c & Hc & Hc01).
  destruct (triangular_after_ratio low high u c (mkRandom rest g) Hlh Hu Hc01)
    as (v & Hv & Hrange).
  exists v; split; [| split].
  - unfold triangular.
    rewrite (bind_Returned _ _ _ _ _ (random_cons u rest g)).
    rewrite (bind_Returned _ _ _ _ _ Hc).
    exact Hv.
  - rewrite Rmin_left, Rmax_right by lra; exact Hrange.
  - exact Hrange.
Qed.

(** C8.  In float arithmetic the value of [triangular] can leave
    [low, high]: [triangular(0.1, 0.4, 0.1)] on the draw [1e-17] takes the
    reflected branch, where [1.0 - u] rounds to 1.0 and [high - low]
    (with the bounds swapped) to -0.30000000000000004, and returns
    0.09999999999999998, which is below [low = 0.1].  The one draw is
    taken and nothing is raised. *)
Theorem triangular64_falls_below_low :
  Binary64.triangular64 Binary64.recorded_libm Binary64.f_0_1 Binary64.f_0_4
    (Some Binary64.f_0_1) [Binary64.f_1em17]
  = Binary64.Returned64 Binary64.f_below_0_1 []
  /\ PrimFloat.ltb Binary64.f_below_0_1 Binary64.f_0_1 = true.
Proof. split; reflexivity. Qed.

(** C10. When [low == high]: with no mode, [triangular] returns [low],
    having taken one draw; with a mode supplied, the mode ratio divides by
    zero and the call raises the division error (after its one draw). *)
Theorem triangular_low_eq_high :
  forall low u rest g,
    0 <= u < 1 ->
    triangular low low None (mkRandom (u :: rest) g)
      = Returned low (mkRandom rest g)
    /\ forall mode,
        triangular low low (Some mode) (mkRandom (u :: rest) g)
          = Raised (ZeroDivisionError "divide by zero") (mkRandom rest g).
Proof.
  intros low u rest g Hu; split.
  - unfold triangular.
    rewrite (bind_Returned _ _ _ _ _ (random_cons u rest g)).
    unfold bind at 1, ret at 1.
    rcase (u >? 0.5).
    + destruct (fpow_half_unit ((1.0 - u) * (1.0 - 0.5)) (mkRandom rest g))
        as (p & Hp & _); [nra |].
      rewrite (bind_Returned _ _ _ _ _ Hp); unfold ret; f_equal; ring.
    + destruct (fpow_half_unit (u * 0.5) (mkRandom rest g))
        as (p & Hp & _); [nra |].
      rewrite (bind_Returned _ _ _ _ _ Hp); unfold ret; f_equal; ring.
  - intros mode; unfold triangular.
    rewrite (bind_Returned _ _ _ _ _ (random_cons u rest g)).
    apply bind_Raised.
    replace (low - low) with 0 by ring.
    apply fdiv_zero.
Qed.

Lemma triangular_low_eq_high_witness :
  triangular 2 2 None (mkRandom [0.25] None) = Returned 2 (mkRandom [] None)
  /\ forall mode,
      triangular 2 2 (Some mode) (mkRandom [0.25] None)
        = Raised (ZeroDivisionError "divide by zero") (mkRandom [] None).
Proof. apply (triangular_low_eq_high 2 0.25 [] None); lra. Defined.

(** ** expovariate *)

Lemma redraw_near_zero_safe tape0 g0 :
  forall u,
    safe (redraw_inv tape0 g0 u) (redraw_near_zero u)
      (after_pass (redraw_inv tape0 g0)
         (fun u' self' => redraw_inv tape0 g0 u' self' /\ 1e-7 < u')).
Proof.
  intros u [tp g] (skipped & Htape & Hsk & Hg); cbn [tape gauss_next] in *.
  unfold redraw_near_zero.
  rcase (u <=? 1e-7).
  - destruct tp as [| u' tp]; [exact I |].
    rewrite bind_random_cons; cbn.
    exists (skipped ++ [u]); cbn [tape gauss_next]; repeat split.
    + rewrite <- app_assoc; exact Htape.
    + apply Forall_app; split; [exact Hsk |].
      constructor; [exact Hle | constructor].
    + exact Hg.
  - cbn; split; [| exact Hle].
    exists skipped; cbn [tape gauss_next]; repeat split; assumption.
Qed.

(* [u = random()] followed by [while u <= 1e-7: u = random()] *)
Lemma first_draw_above_safe self0 :
  safe (eq self0) (u <- random ;; loop redraw_near_zero u)
    (fun u self' =>
       redraw_inv (tape self0) (gauss_next self0) u self' /\ 1e-7 < u).
Proof.
  intros self <-; destruct self0 as [tp g]; cbn [tape gauss_next].
  destruct tp as [| u tp]; [exact I |].
  rewrite bind_random_cons.
  apply (loop_safe (redraw_inv (u :: tp) g) _ _
           (redraw_near_zero_safe (u :: tp) g)).
  exists []; cbn; repeat split; constructor.
Qed.

Lemma redraw_inv_unit self0 u self' :
  unit_draws self0 ->
  redraw_inv (tape self0) (gauss_next self0) u self' ->
  0 <= u < 1 /\ unit_draws self'.
Proof.
  unfold unit_draws; intros Hud (skipped & Htape & _ & _).
  rewrite Htape in Hud; apply Forall_app in Hud; destruct Hud as [_ Hud].
  inversion Hud; subst; split; assumption.
Qed.

Lemma redraw_loop_done u self :
  1e-7 < u -> loop redraw_near_zero u self = Returned u self.
Proof.
  intros Hu; unfold loop; cbn [iterate].
  unfold redraw_near_zero; rewrite (leb_false u 1e-7 Hu); reflexivity.
Qed.

(* The re-draw loop runs out of draws only on a tape of draws that are all
   discarded. *)
Lemma redraw_loop_starved tp :
  forall u g,
    loop redraw_near_zero u (mkRandom tp g) = Starved ->
    u <= 1e-7 /\ Forall (fun w => w <= 1e-7) tp.
Proof.
  induction tp as [| w tp IH]; intros u g; rewrite redraw_loop_unfold.
  - rcase (u <=? 1e-7); [| discriminate].
    intros _; split; [exact Hle | constructor].
  - rcase (u <=? 1e-7); [| discriminate].
    rewrite bind_random_cons; intros H.
    destruct (IH w g H) as [Hw Htp].
    split; [exact Hle | constructor; assumption].
Qed.

Lemma first_draw_above_starved self :
  (u <- random ;; loop redraw_near_zero u) self = Starved ->
  Forall (fun w => w <= 1e-7) (tape self).
Proof.
  destruct self as [[| u tp] g]; cbn [tape]; [constructor |].
  rewrite bind_random_cons; intros H.
  destruct (redraw_loop_starved tp u g H); constructor; assumption.
Qed.

(** C7, as stated, fails in float arithmetic: [expovariate(-5e-308)] on
    the draw [1.5e-7] returns [-inf] (the quotient overflows), and
    [expovariate(1e308)] on the draw [1 - 2^-53] returns 0.0 (the
    quotient underflows), which is not strictly positive. *)
Lemma expovariate64_overflows :
  Binary64.expovariate64 Binary64.recorded_libm Binary64.f_m5em308
    [Binary64.f_1_5em7]
  = Binary64.Returned64 PrimFloat.neg_infinity []
  /\ Binary64.expovariate64 Binary64.recorded_libm Binary64.f_1e308
       [Binary64.f_below_1]
     = Binary64.Returned64 PrimFloat.zero [].
Proof. split; reflexivity. Qed.

(** C7, amended.  For [lambd != 0] and draws in [0,1), [expovariate lambd]
    does not raise, and whenever it returns: the draws it took are some
    draws [<= 1e-7], all discarded, then one draw [u] with
    [1e-7 < u < 1]; the log is applied to that [u] alone, so [-log(u)] is
    strictly positive; the value returned is the quotient
    [-log(u)/lambd], which is not negative for [lambd > 0] and not
    positive for [lambd < 0].  It fails to return only on a tape whose
    draws are all [<= 1e-7]. *)
Theorem expovariate_guarded :
  forall lambd self,
    lambd <> 0 ->
    unit_draws self ->
    match expovariate lambd self with
    | Returned v self' =>
        exists skipped u,
          tape self = skipped ++ u :: tape self'
          /\ Forall (fun w => w <= 1e-7) skipped
          /\ 1e-7 < u < 1
          /\ 0 < - ln u
          /\ v = - ln u / lambd
          /\ (0 < lambd -> 0 <= v)
          /\ (lambd < 0 -> v <= 0)
    | Raised _ _ => False
    | Starved => Forall (fun w => w <= 1e-7) (tape self)
    end.
Proof.
  intros lambd self Hl Hud; unfold expovariate.
  pose proof (first_draw_above_safe self self eq_refl) as H.
  pose proof (first_draw_above_starved self) as Hst.
  rewrite <- bind_assoc; unfold bind at 1.
  destruct ((u <- random ;; loop redraw_near_zero u) self)
    as [u self' | e self' |]; [| exact H | apply Hst; reflexivity].
  destruct H as [Hinv Hu].
  destruct (redraw_inv_unit _ _ _ Hud Hinv) as [Hu01 _].
  destruct Hinv as (skipped & Htape & Hsk & _).
  rewrite bind_log, fdiv_ok by lra.
  assert (Hln : 0 < - ln u).
  { assert (ln u < 0); [| lra]. rewrite <- ln_1; apply ln_increasing; lra. }
  exists skipped, u; repeat split; try assumption; try lra.
  - intros Hpos; left; apply Rdiv_lt_0_compat; assumption.
  - intros Hneg.
    assert (0 < - ln u / - lambd) by (apply Rdiv_lt_0_compat; lra).
    replace (- ln u / lambd) with (- (- ln u / - lambd)) by (field; lra).
    lra.
Qed.

Lemma expovariate_guarded_witness :
  match expovariate 1 (mkRandom [0; 0.5] None) with
  | Returned v self' =>
      exists skipped u,
        tape (mkRandom [0; 0.5] None) = skipped ++ u :: tape self'
        /\ Forall (fun w => w <= 1e-7) skipped
        /\ 1e-7 < u < 1
        /\ 0 < - ln u
        /\ v = - ln u / 1
        /\ (0 < 1 -> 0 <= v)
        /\ (1 < 0 -> v <= 0)
  | Raised _ _ => False
  | Starved => Forall (fun w => w <= 1e-7) (tape (mkRandom [0; 0.5] None))
  end.
Proof.
  apply (expovariate_guarded 1 (mkRandom [0; 0.5] None)).
  - lra.
  - unfold unit_draws; cbn; repeat constructor; lra.
Defined.

(* A source that yields exactly 0.0 once: the draw is discarded and the
   next one is used. *)
Example expovariate_after_zero_draw :
  expovariate 1 (mkRandom [0; 0.5] None)
  = Returned (- ln 0.5 / 1) (mkRandom [] None).
Proof.
  unfold expovariate.
  rewrite bind_random_cons.
  assert (Hloop : loop redraw_near_zero 0 (mkRandom [0.5] None)
                  = Returned 0.5 (mkRandom [] None)).
  { unfold loop; cbn [iterate tape List.length].
    unfold redraw_near_zero at 1; rewrite (leb_true 0 1e-7) by lra.
    rewrite bind_random_cons; cbn [ret].
    unfold redraw_near_zero; rewrite (leb_false 0.5 1e-7) by lra.
    reflexivity. }
  rewrite (bind_Returned _ _ _ _ _ Hloop).
  rewrite bind_log, fdiv_ok by lra.
  reflexivity.
Qed.

(** ** vonmisesvariate *)

(** C9. For every [mu] and every [kappa <= 1e-6] (so for every
    [0 <= kappa <= 1e-6]), [vonmisesvariate] takes exactly one draw [u]
    and returns [2*pi*u], whatever [mu] is; for [u] in [0,1) that value
    is in [0, 2*pi).  The rejection loop is not entered. *)
Theorem vonmisesvariate_small_kappa :
  forall mu kappa u rest g,
    0 <= kappa <= 1e-6 ->
    0 <= u < 1 ->
    vonmisesvariate mu kappa (mkRandom (u :: rest) g)
      = Returned (2 * PI * u) (mkRandom rest g)
    /\ 0 <= 2 * PI * u < 2 * PI.
Proof.
  intros mu kappa u rest g Hk Hu; split.
  - unfold vonmisesvariate.
    rewrite (leb_true kappa 1e-6) by lra.
    rewrite (bind_Returned _ _ _ _ _ (random_cons u rest g)).
    unfold ret, TWOPI, _pi; f_equal; lra.
  - pose proof PI_RGT_0 as Hpi; nra.
Qed.

Lemma vonmisesvariate_small_kappa_witness :
  vonmisesvariate 1 0 (mkRandom [0.5] None)
    = Returned (2 * PI * 0.5) (mkRandom [] None)
  /\ 0 <= 2 * PI * 0.5 < 2 * PI.
Proof. apply (vonmisesvariate_small_kappa 1 0 0.5 [] None); lra. Defined.

(** ** gammavariate *)

Lemma gammavariate_invalid alpha beta self :
  alpha <= 0 \/ beta <= 0 ->
  gammavariate alpha beta self = Raised gamma_ValueError self.
Proof.
  intros H; unfold gammavariate.
  destruct H as [H | H].
  - rewrite (leb_true alpha 0.0) by lra; reflexivity.
  - rewrite (leb_true beta 0.0) by lra; rewrite orb_true_r; reflexivity.
Qed.

Lemma cheng_pass_safe alpha beta :
  1 < alpha -> 0 < beta ->
  forall s,
    safe unit_draws
      (cheng_pass alpha beta (sqrt (2.0 * alpha - 1.0)) (alpha - LOG4)
         (alpha + sqrt (2.0 * alpha - 1.0)) s)
      (after_pass (fun _ => unit_draws)
         (fun x self' => 0 < x /\ unit_draws self')).
Proof.
  intros Ha Hb s [tp g] Hud; unfold unit_draws in *; cbn [tape] in *.
  unfold cheng_pass.
  destruct tp as [| u1 tp]; [exact I |].
  rewrite bind_random_cons.
  inversion Hud as [| ? ? Hu1 Hud1]; subst.
  assert (Hainv : 0 < sqrt (2.0 * alpha - 1.0)) by (apply sqrt_lt_R0; lra).
  rcase (1e-7 <? u1); [| exact Hud1].
  rcase (u1 <? 0.9999999); [| exact Hud1].
  cbn [andb negb].
  destruct tp as [| r2 tp]; [exact I |].
  rewrite bind_random_cons.
  inversion Hud1 as [| ? ? Hr2 Hud2]; subst.
  rewrite bind_fdiv by lra.
  assert (Hq : 0 < u1 / (1.0 - u1)) by (apply Rdiv_lt_0_compat; lra).
  rewrite bind_log by exact Hq.
  rewrite bind_fdiv by lra.
  cbv zeta.
  set (v := ln (u1 / (1.0 - u1)) / sqrt (2.0 * alpha - 1.0)).
  assert (Hx : 0 < alpha * _exp v * beta).
  { apply Rmult_lt_0_compat; [apply Rmult_lt_0_compat |]; try lra.
    apply exp_pos. }
  match goal with |- context [?a >=? ?b] => rcase (a >=? b) end.
  - rewrite bind_ret. cbn. split; assumption.
  - assert (Hz : 0 < u1 * u1 * (1.0 - r2))
      by (repeat apply Rmult_lt_0_compat; lra).
    rewrite bind_assoc, bind_log by exact Hz.
    rewrite bind_ret.
    match goal with |- context [?a >=? ?b] => destruct (a >=? b) end; cbn;
      [split |]; assumption.
Qed.

Lemma gs_pass_safe alpha :
  0 < alpha < 1 ->
  forall s,
    safe unit_draws (gs_pass alpha s)
      (after_pass (fun _ => unit_draws)
         (fun x self' => 0 <= x /\ unit_draws self')).
Proof.
  intros [Ha0 Ha1] s [tp g] Hud; unfold unit_draws in *; cbn [tape] in *.
  unfold gs_pass.
  destruct tp as [| u tp]; [exact I |].
  rewrite bind_random_cons.
  inversion Hud as [| ? ? Hu Hud1]; subst.
  pose proof e_gt_1 as He.
  rewrite bind_fdiv by lra.
  cbv zeta.
  set (b := (_e + alpha) / _e).
  assert (Hinv : 0 < / _e < 1).
  { split; [apply Rinv_0_lt_compat; lra |].
    rewrite <- Rinv_1; apply Rinv_lt_contravar; lra. }
  assert (Hb : b = 1 + alpha * / _e) by (unfold b; field; lra).
  assert (Hb1 : 1 < b < 1 + alpha) by nra.
  rcase (b * u <=? 1.0).
  - rewrite bind_assoc, bind_fdiv by lra.
    assert (Hia : 0 < 1.0 / alpha) by (apply Rdiv_lt_0_compat; lra).
    destruct (fpow_nonneg (b * u) (1.0 / alpha) (mkRandom tp g))
      as (x & Hx & Hx0); [nra | exact Hia |].
    rewrite (bind_Returned _ _ _ _ _ Hx).
    destruct tp as [| u1 tp]; [exact I |].
    rewrite bind_random_cons.
    inversion Hud1 as [| ? ? Hu1 Hud2]; subst.
    rewrite (ltb_false 1.0 (b * u)) by lra.
    destruct (u1 <=? _exp (- x)); cbn; [split |]; assumption.
  - rewrite bind_assoc, bind_fdiv by lra.
    assert (Hq : 0 < (b - b * u) / alpha < 1).
    { split; [apply Rdiv_lt_0_compat; nra |].
      apply (Rmult_lt_reg_r alpha); [lra |].
      unfold Rdiv; rewrite Rmult_assoc, Rinv_l by lra; lra. }
    rewrite bind_assoc, bind_log by lra.
    rewrite bind_ret.
    assert (Hx : 0 < - ln ((b - b * u) / alpha)).
    { assert (ln ((b - b * u) / alpha) < 0); [| lra].
      rewrite <- ln_1; apply ln_increasing; lra. }
    destruct tp as [| u1 tp]; [exact I |].
    rewrite bind_random_cons.
    inversion Hud1 as [| ? ? Hu1 Hud2]; subst.
    rewrite (ltb_true 1.0 (b * u)) by lra.
    rewrite (bind_Returned _ _ _ _ _
               (fpow_pos _ (alpha - 1.0) _ Hx ltac:(lra))).
    match goal with |- context [?a <=? ?c] => destruct (a <=? c) end; cbn;
      [split; [lra | assumption] | assumption].
Qed.

(* With valid parameters and draws in [0,1), [gammavariate] does not raise,
   and what it returns is not negative. *)
Lemma gammavariate_safe alpha beta :
  0 < alpha -> 0 < beta ->
  safe unit_draws (gammavariate alpha beta)
    (fun x self' => 0 <= x /\ unit_draws self').
Proof.
  intros Ha Hb self Hud; unfold gammavariate.
  rewrite (leb_false alpha 0.0), (leb_false beta 0.0) by lra; cbn [orb].
  rcase (alpha >? 1.0).
  - rewrite bind_sqrt by lra; cbv zeta.
    pose proof (loop_safe _ _ _ (cheng_pass_safe alpha beta ltac:(lra) Hb)
                  tt self Hud)
      as H.
    destruct (loop _ tt self) as [x self' | e self' |]; [| exact H ..].
    destruct H; split; [lra | assumption].
  - rcase (alpha =? 1.0).
    + pose proof (first_draw_above_safe self self eq_refl) as H.
      rewrite <- bind_assoc.
      unfold bind at 1.
      destruct ((u <- random ;; loop redraw_near_zero u) self)
        as [u self' | e self' |]; [| exact H ..].
      destruct H as [Hinv Hu].
      destruct (redraw_inv_unit _ _ _ Hud Hinv) as [Hu01 Hud'].
      rewrite bind_log by lra; cbn.
      split; [| exact Hud'].
      assert (ln u < 0) by (rewrite <- ln_1; apply ln_increasing; lra).
      nra.
    + assert (Ha01 : 0 < alpha < 1) by lra.
      pose proof (loop_safe _ _ _ (gs_pass_safe alpha Ha01) tt self Hud) as H.
      unfold bind.
      destruct (loop _ tt self) as [x self' | e self' |]; [| exact H ..].
      destruct H; cbn; split; [nra | assumption].
Qed.

(** C1. On draws in [0,1): [gammavariate alpha beta] raises if and only
    if [alpha <= 0] or [beta <= 0], and what it then raises is its
    invalid-argument condition.  So for [alpha > 0] and [beta > 0] no call
    raises, in any of the three regimes of [alpha]. *)
Theorem gammavariate_raises_iff :
  forall alpha beta self,
    unit_draws self ->
    ((exists e self', gammavariate alpha beta self = Raised e self')
     <-> alpha <= 0 \/ beta <= 0)
    /\ (alpha <= 0 \/ beta <= 0 ->
        gammavariate alpha beta self = Raised gamma_ValueError self).
Proof.
  intros alpha beta self Hud; split; [split |].
  - intros (e & self' & Hraise).
    destruct (Rle_dec alpha 0) as [| Ha]; [left; assumption |].
    destruct (Rle_dec beta 0) as [| Hb]; [right; assumption |].
    pose proof (gammavariate_safe alpha beta ltac:(lra) ltac:(lra) self Hud)
      as H.
    rewrite Hraise in H; contradiction.
  - intros H; exists gamma_ValueError, self.
    apply gammavariate_invalid; exact H.
  - apply gammavariate_invalid.
Qed.

Lemma gammavariate_raises_iff_witness :
  ((exists e self',
       gammavariate 2 1 (mkRandom [0.5; 0; 0.5] None) = Raised e self')
   <-> 2 <= 0 \/ 1 <= 0)
  /\ (2 <= 0 \/ 1 <= 0 ->
      gammavariate 2 1 (mkRandom [0.5; 0; 0.5] None)
      = Raised gamma_ValueError (mkRandom [0.5; 0; 0.5] None)).
Proof.
  apply (gammavariate_raises_iff 2 1 (mkRandom [0.5; 0; 0.5] None)).
  unfold unit_draws; cbn; repeat constructor; lra.
Defined.

(* gammavariate(1.0, beta) on a first draw above the guard *)
Lemma gammavariate_1_first_draw beta u rest g :
  0 < beta -> 1e-7 < u ->
  gammavariate 1 beta (mkRandom (u :: rest) g)
  = Returned (- ln u * beta) (mkRandom rest g).
Proof.
  intros Hb Hu; unfold gammavariate.
  rewrite (leb_false 1 0.0), (leb_false beta 0.0) by lra; cbn [orb].
  rewrite (ltb_false 1.0 1), (eqb_true 1 1.0) by lra.
  rewrite bind_random_cons.
  rewrite (bind_Returned _ _ _ _ _ (redraw_loop_done u _ Hu)).
  rewrite bind_log by lra.
  reflexivity.
Qed.

(* gammavariate(0.5, 1.0) on the draws 0.0 and 0.5: the first pass of
   algorithm GS has p = 0, x = 0 and accepts. *)
Lemma gammavariate_half_zero_draw :
  gammavariate 0.5 1.0 (mkRandom [0; 0.5] None)
  = Returned 0 (mkRandom [] None).
Proof.
  unfold gammavariate.
  rewrite (leb_false 0.5 0.0), (leb_false 1.0 0.0) by lra; cbn [orb].
  rewrite (ltb_false 1.0 0.5), (eqb_false 0.5 1.0) by lra.
  assert (Hpass : gs_pass 0.5 tt (mkRandom [0; 0.5] None)
                  = Returned (Break 0) (mkRandom [] None)).
  { unfold gs_pass.
    pose proof e_gt_1 as He.
    rewrite bind_random_cons, bind_fdiv by lra; cbv zeta.
    rewrite Rmult_0_r.
    rewrite (leb_true 0 1.0) by lra.
    rewrite bind_assoc, bind_fdiv by lra.
    rewrite (bind_Returned _ _ _ _ _ (fpow_zero (1.0 / 0.5) _ ltac:(lra))).
    rewrite bind_random_cons.
    rewrite (ltb_false 1.0 0) by lra.
    unfold _exp; rewrite Ropp_0, exp_0.
    rewrite (leb_true 0.5 1) by lra.
    reflexivity. }
  unfold loop; cbn [iterate].
  unfold bind at 1; rewrite Hpass.
  unfold ret; f_equal; lra.
Qed.

Lemma cheng_pass_scales alpha beta ainv bbb ccc s self :
  cheng_pass alpha beta ainv bbb ccc s self
  = map_outcome (map_ctl (fun x => beta * x))
      (cheng_pass alpha 1.0 ainv bbb ccc s self).
Proof.
  unfold cheng_pass.
  rewrite map_outcome_bind; apply bind_ext; intros u1 self1.
  destruct (negb ((1e-7 <? u1) && (u1 <? 0.9999999))); [reflexivity |].
  rewrite map_outcome_bind; apply bind_ext; intros r2 self2.
  rewrite map_outcome_bind; apply bind_ext; intros q self3.
  rewrite map_outcome_bind; apply bind_ext; intros lq self4.
  rewrite map_outcome_bind; apply bind_ext; intros v self5.
  cbv zeta.
  rewrite map_outcome_bind; apply bind_ext; intros accept self6.
  destruct accept; unfold ret; cbn; [f_equal; f_equal; lra | reflexivity].
Qed.

(** C5. For [alpha > 0] and [beta > 0], on every tape of draws:
    [gammavariate alpha beta] does what [gammavariate alpha 1.0] does on
    that tape: it raises, starves or returns alike, leaves the same draws,
    and returns [beta] times the value [gammavariate alpha 1.0] returns.
    Each pass of Cheng's loop, the one loop that mentions [beta], accepts
    or rejects alike for [beta] and for 1.0; the loops of the other two
    regimes do not mention [beta]. *)
Theorem gammavariate_beta_scales :
  forall alpha beta self,
    0 < alpha -> 0 < beta ->
    gammavariate alpha beta self
      = map_outcome (fun x => beta * x) (gammavariate alpha 1.0 self)
    /\ forall ainv bbb ccc s self1,
        cheng_pass alpha beta ainv bbb ccc s self1
        = map_outcome (map_ctl (fun x => beta * x))
            (cheng_pass alpha 1.0 ainv bbb ccc s self1).
Proof.
  intros alpha beta self Ha Hb; split; [| intros; apply cheng_pass_scales].
  unfold gammavariate.
  rewrite (leb_false alpha 0.0), (leb_false beta 0.0), (leb_false 1.0 0.0)
    by lra.
  cbn [orb].
  destruct (alpha >? 1.0).
  - rewrite map_outcome_bind; apply bind_ext; intros ainv self1.
    cbv zeta; apply loop_map; intros s self2; apply cheng_pass_scales.
  - destruct (alpha =? 1.0).
    + rewrite map_outcome_bind; apply bind_ext; intros u self1.
      rewrite map_outcome_bind; apply bind_ext; intros u' self2.
      rewrite map_outcome_bind; apply bind_ext; intros l self3.
      unfold ret; cbn; f_equal; lra.
    + rewrite map_outcome_bind; apply bind_ext; intros x self1.
      unfold ret; cbn; f_equal; lra.
Qed.

Lemma gammavariate_beta_scales_witness :
  gammavariate 1 3 (mkRandom [0.5] None)
    = map_outcome (fun x => 3 * x) (gammavariate 1 1.0 (mkRandom [0.5] None))
  /\ forall ainv bbb ccc s self1,
      cheng_pass 1 3 ainv bbb ccc s self1
      = map_outcome (map_ctl (fun x => 3 * x))
          (cheng_pass 1 1.0 ainv bbb ccc s self1).
Proof. apply (gammavariate_beta_scales 1 3 (mkRandom [0.5] None)); lra. Defined.

(** C6. On every tape of draws (and whatever is cached for [gauss]),
    [gammavariate 1.0 1.0] does what [expovariate 1.0] does: the same
    re-draw loop over the same draws, the same value returned, the same
    draws left. *)
Theorem gammavariate_1_1_is_expovariate_1 :
  forall self, gammavariate 1.0 1.0 self = expovariate 1.0 self.
Proof.
  intros self; unfold gammavariate, expovariate.
  rewrite (leb_false 1.0 0.0) by lra; cbn [orb].
  rewrite (ltb_false 1.0 1.0) by lra.
  rewrite (eqb_true 1.0 1.0 eq_refl).
  apply bind_ext; intros u self1.
  apply bind_ext; intros u' self2.
  apply bind_ext; intros l self3.
  rewrite fdiv_ok by lra.
  unfold ret; f_equal; lra.
Qed.

(** ** gauss *)

(** C3. On a generator with no cached value, with [x] the first draw and
    [y] the second (in [0,1)): the first call to [gauss mu sigma] takes
    those two draws, returns [mu + cos(2*pi*x)*sqrt(-2*log(1-y))*sigma] and
    caches [sin(2*pi*x)*sqrt(-2*log(1-y))]; the second call takes no draw,
    returns [mu] plus the cached value times [sigma], and leaves the cache
    empty.  Two draws in all. *)
Theorem gauss_pair :
  forall mu sigma x y rest,
    0 <= y < 1 ->
    let g2rad := sqrt (-2 * ln (1 - y)) in
    let cached := sin (2 * PI * x) * g2rad in
    gauss mu sigma (mkRandom (x :: y :: rest) None)
      = Returned (mu + cos (2 * PI * x) * g2rad * sigma)
                 (mkRandom rest (Some cached))
    /\ gauss mu sigma (mkRandom rest (Some cached))
      = Returned (mu + cached * sigma) (mkRandom rest None).
Proof.
  intros mu sigma x y rest Hy g2rad cached; split.
  - unfold gauss, get_gauss_next, set_gauss_next.
    unfold bind at 1; cbn [gauss_next tape].
    unfold bind at 1; cbn [gauss_next tape].
    assert (Hln : ln (1.0 - y) <= 0).
    { destruct (Req_dec_T y 0) as [-> | Hne].
      - replace (1.0 - 0) with 1 by lra; rewrite ln_1; lra.
      - left; rewrite <- ln_1; apply ln_increasing; lra. }
    assert (Hrun :
      (u <- random ;;
       let x2pi := u * TWOPI in
       y0 <- random ;;
       l <- _log (1.0 - y0) ;;
       g2rad0 <- _sqrt (-2.0 * l) ;;
       let z := _cos x2pi * g2rad0 in
       (fun self => Returned tt (mkRandom (tape self)
                                   (Some (_sin x2pi * g2rad0)))) ;;;
       ret z) (mkRandom (x :: y :: rest) None)
      = Returned (cos (2 * PI * x) * g2rad) (mkRandom rest (Some cached))).
    { rewrite (bind_Returned _ _ _ _ _ (random_cons x (y :: rest) None)).
      cbv zeta.
      rewrite (bind_Returned _ _ _ _ _ (random_cons y rest None)).
      rewrite (bind_Returned _ _ _ _ _ (_log_ok (1.0 - y) _ ltac:(lra))).
      rewrite (bind_Returned _ _ _ _ _
                 (_sqrt_ok (-2.0 * ln (1.0 - y)) _ ltac:(lra))).
      unfold bind, ret, _cos, _sin, TWOPI, _pi; cbn [tape].
      subst cached g2rad.
      replace (x * (2.0 * PI)) with (2 * PI * x) by lra.
      replace (-2.0 * ln (1.0 - y)) with (-2 * ln (1 - y))
        by (replace (1.0 - y) with (1 - y) by lra; lra).
      reflexivity. }
    rewrite (bind_Returned _ _ _ _ _ Hrun).
    reflexivity.
  - reflexivity.
Qed.

Lemma gauss_pair_witness :
  let g2rad := sqrt (-2 * ln (1 - 0.5)) in
  let cached := sin (2 * PI * 0.25) * g2rad in
  gauss 0 1 (mkRandom [0.25; 0.5] None)
    = Returned (0 + cos (2 * PI * 0.25) * g2rad * 1)
               (mkRandom [] (Some cached))
  /\ gauss 0 1 (mkRandom [] (Some cached))
    = Returned (0 + cached * 1) (mkRandom [] None).
Proof. apply (gauss_pair 0 1 0.25 0.5 []); lra. Defined.

(** ** betavariate *)

(* betavariate(1.0, 0.0) on the one draw 0.5: the first sample takes the
   draw, then the second call to gammavariate raises. *)
Lemma betavariate_1_0_run :
  betavariate 1 0 (mkRandom [0.5] None)
  = Raised gamma_ValueError (mkRandom [] None).

Proof.
  unfold betavariate.
  rewrite (bind_Returned _ _ _ _ _
             (gammavariate_1_first_draw 1.0 0.5 [] None ltac:(lra) ltac:(lra))).
  pose proof ln_half_neg.
  rewrite (eqb_false (- ln 0.5 * 1.0) 0) by lra.
  apply bind_Raised, gammavariate_invalid; lra.
Qed.

(** C2, as stated, fails: [betavariate 1.0 0.0] raises the
    invalid-argument condition after one draw has been taken. *)
Lemma betavariate_raises_after_a_draw :
  betavariate 1 0 (mkRandom [0.5] None)
  = Raised gamma_ValueError (mkRandom [] None)
  /\ draws_taken (mkRandom [0.5] None) (mkRandom [] None) = 1%nat.
Proof. split; [exact betavariate_1_0_run | reflexivity]. Qed.

(** C2, amended.  For [alpha <= 0] or [beta <= 0]: [gammavariate alpha
    beta] raises the invalid-argument condition with no draw taken.
    [betavariate alpha beta] does so when [alpha <= 0]; when [alpha > 0]
    (and so [beta <= 0]) it first runs [gammavariate alpha 1.0], and only
    if that returns a sample other than 0 does it raise the
    invalid-argument condition, with the draws of that first sample
    taken; if the sample is 0 it returns 0.0 and raises nothing. *)
Theorem invalid_argument_draws :
  forall alpha beta self,
    alpha <= 0 \/ beta <= 0 ->
    gammavariate alpha beta self = Raised gamma_ValueError self
    /\ betavariate alpha beta self
       = if alpha <=? 0 then Raised gamma_ValueError self
         else match gammavariate alpha 1.0 self with
              | Returned y self1 =>
                  if y =? 0 then Returned 0.0 self1
                  else Raised gamma_ValueError self1
              | Raised e self1 => Raised e self1
              | Starved => Starved
              end.
Proof.
  intros alpha beta self H; split; [apply gammavariate_invalid; exact H |].
  unfold betavariate.
  rcase (alpha <=? 0).
  - apply bind_Raised, gammavariate_invalid; left; exact Hle.
  - assert (Hb : beta <= 0) by lra.
    unfold bind at 1.
    destruct (gammavariate alpha 1.0 self) as [y self1 | e self1 |];
      [| reflexivity ..].
    destruct (y =? 0); [reflexivity |].
    apply bind_Raised, gammavariate_invalid; left; exact Hb.
Qed.

Lemma invalid_argument_draws_witness :
  gammavariate 1 0 (mkRandom [0.5] None)
  = Raised gamma_ValueError (mkRandom [0.5] None)
  /\ betavariate 1 0 (mkRandom [0.5] None)
     = if 1 <=? 0 then Raised gamma_ValueError (mkRandom [0.5] None)
       else match gammavariate 1 1.0 (mkRandom [0.5] None) with
            | Returned y self1 =>
                if y =? 0 then Returned 0.0 self1
                else Raised gamma_ValueError self1
            | Raised e self1 => Raised e self1
            | Starved => Starved
            end.
Proof. apply (invalid_argument_draws 1 0 (mkRandom [0.5] None)); lra. Defined.

(* betavariate(1.0, 0.5) on the draws 0.5, 0.0, 0.5: the second sample
   is 0, so the result is y / (y + 0). *)
Lemma betavariate_1_half_run :
  betavariate 1 0.5 (mkRandom [0.5; 0; 0.5] None)
  = Returned 1 (mkRandom [] None).
Proof.
  unfold betavariate.
  rewrite (bind_Returned _ _ _ _ _
             (gammavariate_1_first_draw 1.0 0.5 [0; 0.5] None
                ltac:(lra) ltac:(lra))).
  pose proof ln_half_neg.
  rewrite (eqb_false (- ln 0.5 * 1.0) 0) by lra.
  rewrite (bind_Returned _ _ _ _ _ gammavariate_half_zero_draw).
  rewrite fdiv_ok by lra.
  f_equal; field; lra.
Qed.

(** C4, as stated, fails: [betavariate 1.0 0.5] returns exactly 1 on
    the draws 0.5, 0.0, 0.5, which is outside [0,1). *)
Lemma betavariate_returns_one :
  betavariate 1 0.5 (mkRandom [0.5; 0; 0.5] None)
  = Returned 1 (mkRandom [] None)
  /\ ~ (0 <= 1 < 1).
Proof. split; [exact betavariate_1_half_run | lra]. Qed.

(** C4, amended.  For [alpha > 0], [beta > 0] and draws in [0,1),
    whenever [betavariate alpha beta] returns, its result is in the closed
    interval [0,1]; and whenever the first sample [gammavariate alpha 1.0]
    is 0, the result is 0.0 and the second sample is not drawn. *)
Theorem betavariate_unit_interval :
  forall alpha beta self v self',
    0 < alpha -> 0 < beta ->
    unit_draws self ->
    betavariate alpha beta self = Returned v self' ->
    0 <= v <= 1
    /\ exists y self1,
        gammavariate alpha 1.0 self = Returned y self1
        /\ (y = 0 -> v = 0 /\ self' = self1).
Proof.
  intros alpha beta self v self' Ha Hb Hud Hret.
  unfold betavariate, bind in Hret.
  pose proof (gammavariate_safe alpha 1.0 Ha ltac:(lra) self Hud) as Hy.
  destruct (gammavariate alpha 1.0 self) as [y self1 | |]; try discriminate.
  destruct Hy as [Hy0 Hud1].
  revert Hret; rcase (y =? 0); intros Hret.
  - injection Hret as <- <-.
    split; [lra |]; exists y, self1; split; [reflexivity |].
    intros _; split; [lra | reflexivity].
  - pose proof (gammavariate_safe beta 1.0 Hb ltac:(lra) self1 Hud1) as Hg.
    destruct (gammavariate beta 1.0 self1) as [g self2 | |];
      try discriminate.
    destruct Hg as [Hg0 _].
    rewrite fdiv_ok in Hret by lra.
    injection Hret as <- <-.
    assert (Hyg : 0 < y + g) by lra.
    assert (Hv : 0 < y / (y + g)) by (apply Rdiv_lt_0_compat; lra).
    assert (Hv1 : y / (y + g) <= 1).
    { apply (Rmult_le_reg_r (y + g)); [exact Hyg |].
      unfold Rdiv; rewrite Rmult_assoc, Rinv_l by lra; lra. }
    split; [lra |]; exists y, self1; split; [reflexivity |].
    intros Hy; contradiction.
Qed.

Lemma betavariate_unit_interval_witness :
  0 <= 1 <= 1
  /\ exists y self1,
      gammavariate 1 1.0 (mkRandom [0.5; 0; 0.5] None) = Returned y self1
      /\ (y = 0 -> 1 = 0 /\ mkRandom [] None = self1).
Proof.
  apply (betavariate_unit_interval 1 0.5 (mkRandom [0.5; 0; 0.5] None)
           1 (mkRandom [] None)).
  - lra.
  - lra.
  - unfold unit_draws; cbn; repeat constructor; lra.
  - exact betavariate_1_half_run.
Defined.

(** * Further properties of the module *)

(** ** More on triangular *)

(* The last two steps of [triangular] on a ratio [c] and draw [u] whose
   product is not negative. *)
Lemma triangular_tail low high t self :
  0 <= t ->
  exists p,
    (p <- fpow t 0.5 ;; ret (low + (high - low) * p)) self
    = Returned (low + (high - low) * p) self
    /\ 0 <= p /\ (t <= 1 -> p <= 1).
Proof.
  intros Ht.
  destruct (Rle_dec t 1) as [H1 | H1].
  - destruct (fpow_half_unit t self) as (p & Hp & Hp01); [lra |].
    exists p; rewrite (bind_Returned _ _ _ _ _ Hp).
    split; [reflexivity | split; [lra | intros; lra]].
  - destruct (fpow_nonneg t 0.5 self) as (p & Hp & Hp0); [lra | lra |].
    exists p; rewrite (bind_Returned _ _ _ _ _ Hp).
    split; [reflexivity | split; [lra | intros; lra]].
Qed.

(** X1. With [low != high], any mode at all (inside the range or not, or
    none) and a draw in [0,1), [triangular] takes the one draw and
    returns a float: the square root is never taken of a negative
    number, so nothing is raised. *)
Theorem triangular_any_mode :
  forall low high mode u rest g,
    low <> high ->
    0 <= u < 1 ->
    exists v,
      triangular low high mode (mkRandom (u :: rest) g)
      = Returned v (mkRandom rest g).
Proof.
  intros low high mode u rest g Hlh Hu.
  unfold triangular.
  rewrite bind_random_cons.
  assert (Hc : exists c,
             match mode with
             | None => ret 0.5
             | Some mode => fdiv (mode - low) (high - low)
             end (mkRandom rest g) = Returned c (mkRandom rest g)).
  { destruct mode as [m |].
    - exists ((m - low) / (high - low)); apply fdiv_ok; lra.
    - exists 0.5; reflexivity. }
  destruct Hc as [c Hc].
  rewrite (bind_Returned _ _ _ _ _ Hc).
  rcase (u >? c).
  - destruct (triangular_tail high low ((1.0 - u) * (1.0 - c))
                (mkRandom rest g)) as (p & Hp & _); [nra |].
    eexists; exact Hp.
  - destruct (triangular_tail low high (u * c) (mkRandom rest g))
      as (p & Hp & _); [nra |].
    eexists; exact Hp.
Qed.

Lemma triangular_any_mode_witness :
  exists v,
    triangular 1 3 (Some 7) (mkRandom [0.25] None)
    = Returned v (mkRandom [] None).
Proof. apply (triangular_any_mode 1 3 (Some 7) 0.25 [] None); lra. Defined.

(** ** normalvariate *)

Lemma normal_pass_safe tape0 :
  forall s,
    safe (normal_inv tape0) (normal_pass s)
      (after_pass (fun _ => normal_inv tape0) (normal_accepted tape0)).
Proof.
  intros s [tp g] [Hud (before & Htape & Hev)]; cbn [tape] in *.
  unfold unit_draws in Hud; cbn [tape] in Hud.
  unfold normal_pass.
  destruct tp as [| u1 [| r2 tp]]; [exact I | exact I |].
  apply Forall_cons_iff in Hud; destruct Hud as [Hu1 Hud1].
  apply Forall_cons_iff in Hud1; destruct Hud1 as [Hr2 Hud2].
  rewrite !bind_random_cons; cbv zeta.
  rewrite bind_fdiv, bind_fdiv, bind_log by lra.
  match goal with |- context [?a <=? ?b] => rcase (a <=? b) end; cbn.
  - exists before, u1, r2; repeat split; try assumption.
    + replace (1 - r2) with (1.0 - r2) by lra; reflexivity.
    + replace (1 - r2) with (1.0 - r2) by lra.
      replace 4 with 4.0 by lra; exact Hle.
  - split; [exact Hud2 |].
    exists (before ++ [u1; r2]); split.
    + rewrite <- app_assoc; exact Htape.
    + rewrite length_app; cbn [List.length].
      destruct Hev as [k Hk]; exists (S k); lia.
Qed.

(* The loop of [normalvariate], from the start of a call. *)
Lemma normal_loop_safe self :
  unit_draws self ->
  match loop normal_pass tt self with
  | Returned z self' => normal_accepted (tape self) z self'
  | Raised _ _ => False
  | Starved => True
  end.
Proof.
  intros Hud.
  apply (loop_safe _ _ _ (normal_pass_safe (tape self)) tt self).
  split; [exact Hud |].
  exists []; split; [reflexivity | exists 0%nat; reflexivity].
Qed.

(** X5. For draws in [0,1), [normalvariate mu sigma] does not raise.  When it
    returns, it has taken an even number of draws on rejected passes, then
    the two draws [u1] and [r2] of the accepted pass, and returns
    [mu + z*sigma] for the [z = NV_MAGICCONST*(u1-0.5)/(1-r2)] of that
    pass, which meets the acceptance test [z*z/4 <= -log(1-r2)]. *)
Theorem normalvariate_accepted_pass :
  forall mu sigma self,
    unit_draws self ->
    match normalvariate mu sigma self with
    | Returned v self' =>
        exists before u1 r2 z,
          tape self = before ++ u1 :: r2 :: tape self'
          /\ Nat.Even (List.length before)
          /\ z = NV_MAGICCONST * (u1 - 0.5) / (1 - r2)
          /\ z * z / 4 <= - ln (1 - r2)
          /\ v = mu + z * sigma
    | Raised _ _ => False
    | Starved => True
    end.
Proof.
  intros mu sigma self Hud; unfold normalvariate, bind.
  pose proof (normal_loop_safe self Hud) as H.
  destruct (loop normal_pass tt self) as [z self' | e self' |];
    [| exact H ..].
  destruct H as (before & u1 & r2 & Htape & Hev & Hz & Hacc).
  exists before, u1, r2, z; repeat split; assumption.
Qed.

Lemma normalvariate_accepted_pass_witness :
  match normalvariate 0 1 (mkRandom [0.5; 0.5] None) with
  | Returned v self' =>
      exists before u1 r2 z,
        tape (mkRandom [0.5; 0.5] None) = before ++ u1 :: r2 :: tape self'
        /\ Nat.Even (List.length before)
        /\ z = NV_MAGICCONST * (u1 - 0.5) / (1 - r2)
        /\ z * z / 4 <= - ln (1 - r2)
        /\ v = 0 + z * 1
  | Raised _ _ => False
  | Starved => True
  end.
Proof.
  apply (normalvariate_accepted_pass 0 1 (mkRandom [0.5; 0.5] None)).
  unfold unit_draws; cbn; repeat constructor; lra.
Defined.

(** X6. [normalvariate mu sigma] is [normalvariate 0 1] moved and scaled: on
    every generator it takes the same draws and returns
    [mu + z*sigma] for the [z] that [normalvariate 0 1] returns. *)
Theorem normalvariate_location_scale :
  forall mu sigma self,
    normalvariate mu sigma self
    = map_outcome (fun z => mu + z * sigma) (normalvariate 0 1 self).
Proof.
  intros mu sigma self; unfold normalvariate.
  rewrite map_outcome_bind; apply bind_ext; intros z self'.
  unfold ret; cbn; f_equal; lra.
Qed.

(** ** More on expovariate *)

(** X9. For [lambd != 0], [expovariate lambd] is [expovariate 1.0] divided by
    [lambd]: on every generator it takes the same draws and returns the
    value of [expovariate 1.0] over [lambd] (so a negative [lambd]
    mirrors the result). *)
Theorem expovariate_rate_scales :
  forall lambd self,
    lambd <> 0 ->
    expovariate lambd self
    = map_outcome (fun x => x / lambd) (expovariate 1.0 self).
Proof.
  intros lambd self Hl; unfold expovariate.
  rewrite map_outcome_bind; apply bind_ext; intros u self1.
  rewrite map_outcome_bind; apply bind_ext; intros u' self2.
  rewrite map_outcome_bind; apply bind_ext; intros l self3.
  rewrite !fdiv_ok by lra.
  cbn [map_outcome]; f_equal.
  replace (- l / 1.0) with (- l) by lra; reflexivity.
Qed.

Lemma expovariate_rate_scales_witness :
  expovariate 2 (mkRandom [0.5] None)
  = map_outcome (fun x => x / 2) (expovariate 1.0 (mkRandom [0.5] None)).
Proof. apply (expovariate_rate_scales 2 (mkRandom [0.5] None)); lra. Defined.

(* The draw the re-draw loop ends on is above the guard, whatever the
   draws are. *)
Lemma first_draw_above_guard self :
  match (u <- random ;; loop redraw_near_zero u) self with
  | Returned u self' =>
      1e-7 < u
      /\ exists skipped,
          tape self = skipped ++ u :: tape self'
          /\ Forall (fun w => w <= 1e-7) skipped
  | Raised _ _ => False
  | Starved => Forall (fun w => w <= 1e-7) (tape self)
  end.
Proof.
  pose proof (first_draw_above_safe self self eq_refl) as H.
  pose proof (first_draw_above_starved self) as Hst.
  destruct ((u <- random ;; loop redraw_near_zero u) self)
    as [u self' | e self' |]; [| exact H | apply Hst; reflexivity].
  destruct H as [(skipped & Htape & Hsk & _) Hu].
  split; [exact Hu | exists skipped; split; assumption].
Qed.

(** X10. [expovariate 0.0] never returns: it takes draws until one is above
    [1e-7], and then raises the division error, with those draws taken;
    on a tape whose draws are all [<= 1e-7] it runs out of draws. *)
Theorem expovariate_zero_rate :
  forall self,
    match expovariate 0 self with
    | Returned _ _ => False
    | Raised e self' =>
        e = ZeroDivisionError "divide by zero"
        /\ exists skipped u,
            tape self = skipped ++ u :: tape self'
            /\ Forall (fun w => w <= 1e-7) skipped
            /\ 1e-7 < u
    | Starved => Forall (fun w => w <= 1e-7) (tape self)
    end.
Proof.
  intros self; unfold expovariate.
  pose proof (first_draw_above_guard self) as H.
  rewrite <- bind_assoc; unfold bind at 1.
  destruct ((u <- random ;; loop redraw_near_zero u) self)
    as [u self' | e self' |]; [| contradiction | exact H].
  destruct H as (Hu & skipped & Htape & Hsk).
  rewrite bind_log by lra.
  rewrite fdiv_zero.
  split; [reflexivity |].
  exists skipped, u; repeat split; assumption.
Qed.

(** ** betavariate never raises *)

(** X17. For [alpha > 0] and [beta > 0], [betavariate alpha beta] does not
    raise on draws in [0,1): the sum it divides by is never 0. *)
Theorem betavariate_never_raises :
  forall alpha beta self,
    0 < alpha -> 0 < beta ->
    unit_draws self ->
    match betavariate alpha beta self with
    | Raised _ _ => False
    | _ => True
    end.
Proof.
  intros alpha beta self Ha Hb Hud.
  unfold betavariate, bind.
  pose proof (gammavariate_safe alpha 1.0 Ha ltac:(lra) self Hud) as Hy.
  destruct (gammavariate alpha 1.0 self) as [y self1 | |];
    [| exact Hy | exact I].
  destruct Hy as [Hy0 Hud1].
  rcase (y =? 0); [exact I |].
  pose proof (gammavariate_safe beta 1.0 Hb ltac:(lra) self1 Hud1) as Hg.
  destruct (gammavariate beta 1.0 self1) as [g self2 | |];
    [| exact Hg | exact I].
  destruct Hg as [Hg0 _].
  rewrite fdiv_ok by lra; exact I.
Qed.

Lemma betavariate_never_raises_witness :
  match betavariate 1 0.5 (mkRandom [0.5; 0; 0.5] None) with
  | Raised _ _ => False
  | _ => True
  end.
Proof.
  apply (betavariate_never_raises 1 0.5 (mkRandom [0.5; 0; 0.5] None));
    try lra.
  unfold unit_draws; cbn; repeat constructor; lra.
Defined.

(** ** More on gauss *)

(* A call of [gauss] on an empty cache and two draws. *)
Lemma gauss_fresh_run mu sigma x y rest :
  0 <= y < 1 ->
  gauss mu sigma (mkRandom (x :: y :: rest) None)
  = Returned (mu + cos (x * TWOPI) * sqrt (-2.0 * ln (1.0 - y)) * sigma)
      (mkRandom rest
         (Some (sin (x * TWOPI) * sqrt (-2.0 * ln (1.0 - y))))).
Proof.
  intros Hy.
  assert (Hln : ln (1.0 - y) <= 0).
  { destruct (Req_dec_T y 0) as [-> | Hne].
    - replace (1.0 - 0) with 1 by lra; rewrite ln_1; lra.
    - left; rewrite <- ln_1; apply ln_increasing; lra. }
  unfold gauss, get_gauss_next, set_gauss_next.
  unfold bind at 1; cbn [gauss_next tape].
  unfold bind at 1; cbn [gauss_next tape].
  unfold bind at 1.
  rewrite bind_random_cons; cbv zeta.
  rewrite bind_random_cons.
  rewrite bind_log by lra.
  rewrite bind_sqrt by lra.
  reflexivity.
Qed.

(* A call of [gauss] on a full cache. *)
Lemma gauss_cached_run mu sigma z tp :
  gauss mu sigma (mkRandom tp (Some z))
  = Returned (mu + z * sigma) (mkRandom tp None).
Proof. reflexivity. Qed.

Lemma gauss_draws_closed n :
  gauss_draws false n = (n + Nat.b2n (Nat.odd n))%nat
  /\ (gauss_draws true n + Nat.b2n (Nat.odd n))%nat = n.
Proof.
  induction n as [| n [IHf IHt]]; [split; reflexivity |].
  cbn [gauss_draws]; rewrite Nat.odd_succ, <- Nat.negb_odd.
  destruct (Nat.odd n); cbn [negb Nat.b2n] in *; lia.
Qed.

(* [n] calls of [gauss] in a row, from any state of the cache. *)
Lemma gauss_calls_run mu sigma n :
  forall self,
    unit_draws self ->
    (gauss_draws (is_cached self) n <= List.length (tape self))%nat ->
    exists vs self',
      calls n (gauss mu sigma) self = Returned vs self'
      /\ List.length vs = n
      /\ List.length (tape self)
         = (gauss_draws (is_cached self) n + List.length (tape self'))%nat
      /\ is_cached self' = xorb (is_cached self) (Nat.odd n).
Proof.
  induction n as [| n IH]; intros [tp [z |]] Hud Hlen;
    unfold is_cached in *; cbn [gauss_next tape gauss_draws] in *.
  - eexists; eexists; split; [reflexivity |]; cbn; auto.
  - eexists; eexists; split; [reflexivity |]; cbn; auto.
  - destruct (IH (mkRandom tp None) Hud Hlen)
      as (vs & self' & Hc & Hl & Ht & Hg).
    exists ((mu + z * sigma) :: vs), self'.
    cbn [calls]; rewrite (bind_Returned _ _ _ _ _ (gauss_cached_run _ _ _ _)).
    rewrite (bind_Returned _ _ _ _ _ Hc).
    split; [reflexivity |]; split; [cbn; lia |]; split; [exact Ht |].
    rewrite Hg, Nat.odd_succ, <- Nat.negb_odd; cbn.
    destruct (Nat.odd n); reflexivity.
  - destruct tp as [| x [| y tp]]; cbn in Hlen; try lia.
    unfold unit_draws in Hud; cbn [tape] in Hud.
    apply Forall_cons_iff in Hud; destruct Hud as [_ Hud].
    apply Forall_cons_iff in Hud; destruct Hud as [Hy Hud].
    destruct (IH (mkRandom tp
                    (Some (sin (x * TWOPI) * sqrt (-2.0 * ln (1.0 - y)))))
                Hud ltac:(cbn; lia))
      as (vs & self' & Hc & Hl & Ht & Hg).
    eexists (_ :: vs), self'.
    cbn [calls].
    rewrite (bind_Returned _ _ _ _ _ (gauss_fresh_run _ _ _ _ _ Hy)).
    rewrite (bind_Returned _ _ _ _ _ Hc).
    split; [reflexivity |]; split; [cbn; lia |]; split.
    + cbn [tape gauss_next List.length] in *; lia.
    + rewrite Hg, Nat.odd_succ, <- Nat.negb_odd; cbn.
      destruct (Nat.odd n); reflexivity.
Qed.

(** X16. [n] calls of [gauss] in a row on a generator with an empty cache and
    enough draws in [0,1) all return; together they take [n] draws when
    [n] is even and [n + 1] when [n] is odd (two draws for every other
    call), and the cache is left empty exactly when [n] is even. *)
Theorem gauss_calls_draws :
  forall mu sigma n self,
    gauss_next self = None ->
    unit_draws self ->
    (n + Nat.b2n (Nat.odd n) <= List.length (tape self))%nat ->
    exists vs self',
      calls n (gauss mu sigma) self = Returned vs self'
      /\ List.length vs = n
      /\ List.length (tape self)
         = (n + Nat.b2n (Nat.odd n) + List.length (tape self'))%nat
      /\ (gauss_next self' = None <-> Nat.even n = true).
Proof.
  intros mu sigma n self Hg Hud Hlen.
  destruct (gauss_draws_closed n) as [Hf _].
  assert (Hc : is_cached self = false)
    by (unfold is_cached; rewrite Hg; reflexivity).
  destruct (gauss_calls_run mu sigma n self Hud)
    as (vs & self' & Hr & Hl & Ht & Hg');
    [rewrite Hc, Hf; exact Hlen |].
  rewrite Hc, Hf in Ht; rewrite Hc in Hg'; cbn [xorb] in Hg'.
  exists vs, self'; repeat split; try assumption.
  - intros Hn; unfold is_cached in Hg'; rewrite Hn in Hg'.
    rewrite <- Nat.negb_odd, <- Hg'; reflexivity.
  - intros He; unfold is_cached in Hg'.
    rewrite <- Nat.negb_odd in He.
    destruct (gauss_next self'); [| reflexivity].
    rewrite <- Hg' in He; discriminate.
Qed.

Lemma gauss_calls_draws_witness :
  exists vs self',
    calls 3 (gauss 0 1) (mkRandom [0.5; 0.5; 0.5; 0.5] None)
    = Returned vs self'
    /\ List.length vs = 3%nat
    /\ List.length (tape (mkRandom [0.5; 0.5; 0.5; 0.5] None))
       = (3 + Nat.b2n (Nat.odd 3) + List.length (tape self'))%nat
    /\ (gauss_next self' = None <-> Nat.even 3 = true).
Proof.
  apply (gauss_calls_draws 0 1 3 (mkRandom [0.5; 0.5; 0.5; 0.5] None)).
  - reflexivity.
  - unfold unit_draws; cbn; repeat constructor; lra.
  - cbn; lia.
Defined.

(** ** paretovariate and weibullvariate *)



(** X23. [weibullvariate alpha 1.0] on a draw [r] is [alpha] times what
    [expovariate 1.0] returns on the mirrored draw [1-r], whenever the
    mirrored draw passes the guard of [expovariate]
    ([1e-7 < 1-r < 1]). *)
Theorem weibullvariate_shape_1_is_expovariate :
  forall alpha r rest g,
    1e-7 < 1 - r < 1 ->
    weibullvariate alpha 1.0 (mkRandom (r :: rest) g)
    = map_outcome (fun x => alpha * x)
        (expovariate 1.0 (mkRandom ((1 - r) :: rest) g)).
Proof.
  intros alpha r rest g Hr.
  assert (Hx : 0 < - ln (1 - r)).
  { assert (ln (1 - r) < 0); [| lra].
    rewrite <- ln_1; apply ln_increasing; lra. }
  unfold weibullvariate, expovariate.
  rewrite !bind_random_cons; cbv zeta.
  rewrite (bind_Returned _ _ _ _ _ (redraw_loop_done (1 - r) _ ltac:(lra))).
  rewrite !bind_log, bind_fdiv, fdiv_ok by lra.
  replace (1.0 - r) with (1 - r) by lra.
  replace (1.0 / 1.0) with 1 by lra.
  rewrite (bind_Returned _ _ _ _ _ (fpow_pos _ 1 _ Hx ltac:(lra))).
  rewrite Rpower_1 by exact Hx.
  unfold ret; cbn; f_equal; lra.
Qed.

Lemma weibullvariate_shape_1_is_expovariate_witness :
  weibullvariate 2 1.0 (mkRandom [0.5] None)
  = map_outcome (fun x => 2 * x)
      (expovariate 1.0 (mkRandom [1 - 0.5] None)).
Proof.
  apply (weibullvariate_shape_1_is_expovariate 2 0.5 [] None); lra.
Defined.

(** ** What a method does to the generator *)

Lemma frame_refl self : frame self self.
Proof. split; [reflexivity | exists []; reflexivity]. Qed.

Lemma frame_trans s1 s2 s3 : frame s1 s2 -> frame s2 s3 -> frame s1 s3.
Proof.
  intros [Hg1 [t1 Ht1]] [Hg2 [t2 Ht2]]; split; [congruence |].
  exists (t1 ++ t2); rewrite Ht1, Ht2, app_assoc; reflexivity.
Qed.

Lemma framed_ret {A} (a : A) : framed (ret a).
Proof. intros self; apply frame_refl. Qed.

Lemma framed_raise {A} e : framed (@raise A e).
Proof. intros self; apply frame_refl. Qed.

Lemma framed_random : framed random.
Proof.
  intros [[| u tp] g]; cbn; [exact I |].
  split; [reflexivity | exists [u]; reflexivity].
Qed.

Lemma framed_bind {A B} (m : M A) (k : A -> M B) :
  framed m -> (forall a, framed (k a)) -> framed (bind m k).
Proof.
  intros Hm Hk self; unfold bind.
  specialize (Hm self).
  destruct (m self) as [a self1 | e self1 |]; [| exact Hm | exact I].
  specialize (Hk a self1).
  destruct (k a self1) as [b self2 | e self2 |];
    [eapply frame_trans; eassumption .. | exact I].
Qed.

Lemma framed_if {A} (b : bool) (m1 m2 : M A) :
  framed m1 -> framed m2 -> framed (if b then m1 else m2).
Proof. destruct b; auto. Qed.

Lemma framed_iterate {St A} (body : St -> M (ctl St A)) :
  (forall s, framed (body s)) -> forall n s, framed (iterate n body s).
Proof.
  intros Hbody n; induction n as [| n IH]; intros s self; [exact I |].
  cbn [iterate].
  specialize (Hbody s self).
  destruct (body s self) as [[s' | a] self1 | e self1 |];
    [| exact Hbody | exact Hbody | exact I].
  specialize (IH s' self1).
  destruct (iterate n body s' self1) as [b self2 | e self2 |];
    [eapply frame_trans; eassumption .. | exact I].
Qed.

Lemma framed_loop {St A} (body : St -> M (ctl St A)) :
  (forall s, framed (body s)) -> forall s, framed (loop body s).
Proof. intros Hbody s self; unfold loop; apply framed_iterate, Hbody. Qed.

Lemma framed_fdiv x y : framed (fdiv x y).
Proof.
  unfold fdiv; apply framed_if; [apply framed_raise | apply framed_ret].
Qed.

Lemma framed_fmod x y : framed (fmod x y).
Proof.
  unfold fmod; apply framed_if; [apply framed_raise | apply framed_ret].
Qed.

Lemma framed_log x : framed (_log x).
Proof.
  unfold _log; apply framed_if; [apply framed_raise | apply framed_ret].
Qed.

Lemma framed_sqrt x : framed (_sqrt x).
Proof.
  unfold _sqrt; apply framed_if; [apply framed_raise | apply framed_ret].
Qed.

Lemma framed_acos x : framed (_acos x).
Proof.
  unfold _acos; apply framed_if; [apply framed_raise | apply framed_ret].
Qed.

Lemma framed_fpow x y : framed (fpow x y).
Proof.
  unfold fpow; repeat apply framed_if;
    first [apply framed_raise | apply framed_ret].
Qed.

Create HintDb frame_db.
#[local] Hint Resolve framed_ret framed_raise framed_random framed_fdiv
  framed_fmod framed_log framed_sqrt framed_acos framed_fpow : frame_db.

Ltac framed_tac :=
  repeat first
    [ progress cbv zeta
    | progress intros
    | solve [auto with frame_db]
    | apply framed_bind
    | apply framed_if
    | apply framed_loop
    | match goal with
      | |- framed (match ?o with Some _ => _ | None => _ end) => destruct o
      end ].

Lemma framed_redraw_near_zero u : framed (redraw_near_zero u).
Proof. unfold redraw_near_zero; framed_tac. Qed.

Lemma framed_gammavariate alpha beta : framed (gammavariate alpha beta).
Proof.
  unfold gammavariate, cheng_pass, gs_pass.
  pose proof framed_redraw_near_zero.
  framed_tac.
Qed.

(** X24. Every method other than [gauss], whether it returns or raises, leaves
    the cached value of [gauss] as it found it, and the draws it leaves
    are the draws it found less the ones at the front that it took, in
    order: no draw is put back, skipped or reordered. *)
Theorem methods_keep_the_gauss_cache :
  forall low high mode mu sigma lambd kappa alpha beta,
    framed (triangular low high mode)
    /\ framed (normalvariate mu sigma)
    /\ framed (lognormvariate mu sigma)
    /\ framed (expovariate lambd)
    /\ framed (vonmisesvariate mu kappa)
    /\ framed (gammavariate alpha beta)
    /\ framed (betavariate alpha beta)
    /\ framed (paretovariate alpha)
    /\ framed (weibullvariate alpha beta).
Proof.
  intros.
  pose proof framed_redraw_near_zero.
  pose proof framed_gammavariate.
  repeat split.
  - unfold triangular.
    apply framed_bind; [apply framed_random | intros u].
    apply framed_bind; [framed_tac | intros c].
    destruct (u >? c); framed_tac.
  - unfold normalvariate, normal_pass; framed_tac.
  - unfold lognormvariate, normalvariate, normal_pass; framed_tac.
  - unfold expovariate; framed_tac.
  - unfold vonmisesvariate, vonmises_pass; framed_tac.
  - apply framed_gammavariate.
  - unfold betavariate; framed_tac.
  - unfold paretovariate; framed_tac.
  - unfold weibullvariate; framed_tac.
Qed.
